(** * dmap: Brogue-style Dijkstra maps

    A shallow embedding of [dijkstra.go] and the properties of its
    relaxation engine.

    Conventions of the embedding:
    - Go's [int] coordinates are [Z]; the loops only ever form [x+1], [x-1]
      and [(SizeX-1)-x] of slice indices, so no machine wrap-around occurs.
    - [Rank] is [uint16]: a [Z] in [0, 65535], with [ln + 1] written as
      [rank_succ], the wrap-around successor.
    - [[][]Rank] is a list of rows, [list (list Rank)]; an index expression
      that Go would reject with a run-time panic yields [None].
    - The [for mademutation] loop has no syntactic bound; it is run with a
      budget of passes and termination is proved separately. *)

From Stdlib Require Import ZArith Lia String Ascii.
From stdpp Require Import base option list numbers relations.

Local Open Scope Z_scope.

(** ** Data model *)

(** [type Rank uint16]: an abbreviation, so that list lemmas over [Z]
    apply to ranks as they are. *)
Abbreviation Rank := Z (only parsing).

Definition MaxUint16 : Z := 65535.

(** [const RankMax = math.MaxUint16 - 10] *)
Definition RankMax : Rank := MaxUint16 - 10.

(** [ln + 1] on [uint16]. *)
Definition rank_succ (r : Rank) : Rank := (r + 1) mod (MaxUint16 + 1).

(** [type Point interface { GetXY() (int, int) }] *)
Class Point (P : Type) := GetXY : P → Z * Z.

(** [type Map interface]: the object is the record of its four methods. *)
Record Map := mkMap {
  SizeX : Z;
  SizeY : Z;
  IsPassable : Z → Z → bool;
  OOB : Z → Z → bool
}.

(** [type WeightedPoint struct] *)
Record WeightedPoint := mkWeightedPoint {
  X : Z;
  Y : Z;
  Val : Rank
}.

(** [func (d *WeightedPoint) GetXY() (int, int)] *)
#[export] Instance WeightedPoint_Point : Point WeightedPoint :=
  λ d, (X d, Y d).

(** The type of [NeigbourFunc].  In Go the function receives the map [d]
    itself; a record cannot hold a function of its own type, so here the
    function receives the two data fields of [d] that it can read.  [None]
    is a run-time panic inside the function. *)
Definition NeighbourFn : Type :=
  list (list Rank) → Map → Z → Z → option (list WeightedPoint).

(** [type DijkstraMap struct] *)
Record DijkstraMap := mkDijkstraMap {
  Points : list (list Rank);
  M : Map;
  NeigbourFunc : NeighbourFn
}.

(** ** Slice access *)

(** [l[i]] as an rvalue: panics outside [0 <= i < len(l)]. *)
Definition index {A : Type} (l : list A) (i : Z) : option A :=
  if decide (0 ≤ i) then l !! Z.to_nat i else None.

(** [pts[x][y]] *)
Definition getPoint (pts : list (list Rank)) (x y : Z) : option Rank :=
  row ← index pts x; index row y.

(** [pts[x][y] = v] *)
Definition setPoint (pts : list (list Rank)) (x y : Z) (v : Rank)
  : option (list (list Rank)) :=
  row ← index pts x;
  _ ← index row y;
  Some (<[Z.to_nat x := <[Z.to_nat y := v]> row]> pts).

(** ** The field engine *)

(** [BlankDMap]: [make] panics on a negative length; the inner [make] runs
    once per row, so a negative [SizeY] only matters when there is a row. *)
Definition BlankDMap (m : Map) (neigbourfunc : NeighbourFn) : option DijkstraMap :=
  if decide (SizeX m < 0) then None
  else if decide (0 < SizeX m ∧ SizeY m < 0) then None
  else Some (mkDijkstraMap
               (replicate (Z.to_nat (SizeX m)) (replicate (Z.to_nat (SizeY m)) RankMax))
               m neigbourfunc).

(** [GetValPoint], on the fields of [d]. *)
Definition GetValPoint (pts : list (list Rank)) (m : Map) (x y : Z)
  : option WeightedPoint :=
  if OOB m x y then Some (mkWeightedPoint x y RankMax)
  else v ← getPoint pts x y; Some (mkWeightedPoint x y v).

(** [ManhattanNeighbours]: east, west, north, south. *)
Definition ManhattanNeighbours : NeighbourFn := λ pts m x y,
  p0 ← GetValPoint pts m (x + 1) y;
  p1 ← GetValPoint pts m (x - 1) y;
  p2 ← GetValPoint pts m x (y - 1);
  p3 ← GetValPoint pts m x (y + 1);
  Some [p0; p1; p2; p3].

(** [DiagonalNeighbours]: the four above, then the four diagonals. *)
Definition DiagonalNeighbours : NeighbourFn := λ pts m x y,
  p0 ← GetValPoint pts m (x + 1) y;
  p1 ← GetValPoint pts m (x - 1) y;
  p2 ← GetValPoint pts m x (y - 1);
  p3 ← GetValPoint pts m x (y + 1);
  p4 ← GetValPoint pts m (x + 1) (y + 1);
  p5 ← GetValPoint pts m (x + 1) (y - 1);
  p6 ← GetValPoint pts m (x - 1) (y + 1);
  p7 ← GetValPoint pts m (x - 1) (y - 1);
  Some [p0; p1; p2; p3; p4; p5; p6; p7].

(** The scan of [LowestNeighbour]: the running pair is [(lv, ret)]. *)
Definition lowest_scan (vals : list WeightedPoint) (lv : Rank) (ret : WeightedPoint)
  : Rank * WeightedPoint :=
  foldl (λ acc val, if decide (Val val < acc.1) then (Val val, val) else acc)
        (lv, ret) vals.

(** [LowestNeighbour]: [vals[0]] panics on an empty list. *)
Definition LowestNeighbour (d : DijkstraMap) (x y : Z) : option WeightedPoint :=
  vals ← NeigbourFunc d (Points d) (M d) x y;
  ret ← vals !! 0%nat;
  Some (lowest_scan vals RankMax ret).2.

(** A [for i := range l] loop whose body may panic: the indices
    [0 .. n-1] in order, threading the state. *)
Fixpoint forRange {St : Type} (from : Z) (n : nat) (body : Z → St → option St) (s : St)
  : option St :=
  match n with
  | O => Some s
  | S n' => s' ← body from s; forRange (from + 1) n' body s'
  end.

(** The state a sweep threads: the rank grid and [mademutation]. *)
Definition SweepState : Type := list (list Rank) * bool.

(** One relaxation test, lines 109-115 (and 117-123 at the mirrored cell). *)
Definition relax (m : Map) (nf : NeighbourFn) (x y : Z) (st : SweepState)
  : option SweepState :=
  if IsPassable m x y then
    wp ← LowestNeighbour (mkDijkstraMap st.1 m nf) x y;
    let ln := Val wp in
    cur ← getPoint st.1 x y;
    if decide (cur > rank_succ ln) then
      pts' ← setPoint st.1 x y (rank_succ ln);
      Some (pts', true)
    else Some st
  else Some st.

(** The body of the inner loop: the cell, then its point reflection. *)
Definition visit (m : Map) (nf : NeighbourFn) (x y : Z) (st : SweepState)
  : option SweepState :=
  st1 ← relax m nf x y st;
  let x1 := (SizeX m - 1) - x in
  let y1 := (SizeY m - 1) - y in
  relax m nf x1 y1 st1.

(** One pass of the outer [for mademutation] body, lines 106-125. *)
Definition sweep (m : Map) (nf : NeighbourFn) (pts : list (list Rank))
  : option SweepState :=
  forRange 0 (length pts) (λ x st,
    row ← index st.1 x;
    forRange 0 (length row) (λ y st', visit m nf x y st') st)
  (pts, false).

(** How a budgeted run of [Calc] ends. *)
Inductive Outcome (A : Type) :=
| Done (a : A)
| Panicked
| OutOfFuel.
Arguments Done {A} a.
Arguments Panicked {A}.
Arguments OutOfFuel {A}.

(** [for mademutation { ... }] with at most [fuel] passes. *)
Fixpoint relaxLoop (fuel : nat) (m : Map) (nf : NeighbourFn) (pts : list (list Rank))
  : Outcome (list (list Rank)) :=
  match fuel with
  | O => OutOfFuel
  | S fuel' =>
      match sweep m nf pts with
      | None => Panicked
      | Some (pts', true) => relaxLoop fuel' m nf pts'
      | Some (pts', false) => Done pts'
      end
  end.

(** Lines 100-103: the targets are force-set to rank 0. *)
Fixpoint setTargets {P : Type} `{Point P} (pts : list (list Rank)) (points : list P)
  : option (list (list Rank)) :=
  match points with
  | [] => Some pts
  | point :: rest =>
      let '(x, y) := GetXY point in
      pts' ← setPoint pts x y 0;
      setTargets pts' rest
  end.

(** [Calc] *)
Definition Calc {P : Type} `{Point P} (fuel : nat) (d : DijkstraMap) (points : list P)
  : Outcome DijkstraMap :=
  match setTargets (Points d) points with
  | None => Panicked
  | Some pts =>
      match relaxLoop fuel (M d) (NeigbourFunc d) pts with
      | Done pts' => Done (mkDijkstraMap pts' (M d) (NeigbourFunc d))
      | Panicked => Panicked
      | OutOfFuel => OutOfFuel
      end
  end.

(** [Recalc]: every cell of the existing grid is overwritten with
    [RankMax], row by row, then [Calc] runs. *)
Definition Recalc {P : Type} `{Point P} (fuel : nat) (d : DijkstraMap) (points : list P)
  : Outcome DijkstraMap :=
  let pts := (λ row : list Rank, (λ _ : Rank, RankMax) <$> row) <$> Points d in
  Calc fuel (mkDijkstraMap pts (M d) (NeigbourFunc d)) points.

(** ** Textual rendering *)

(** The characters written. *)
Definition space : ascii := " "%char.
Definition comma : ascii := ","%char.
Definition newline : ascii := ascii_of_nat 10.

(** The digit [k] as a character: ['0' + k]. *)
Definition digitChar (k : Z) : ascii := ascii_of_nat (48 + Z.to_nat k).

(** The verb [%d] on an unsigned value: the digits are produced from the
    least significant one, each put in front of those already there. *)
Fixpoint decimal_go (fuel : nat) (n : Z) (acc : list ascii) : list ascii :=
  match fuel with
  | O => acc
  | S fuel' =>
      let acc' := digitChar (n mod 10) :: acc in
      if decide (n / 10 = 0) then acc' else decimal_go fuel' (n / 10) acc'
  end.

(** A number has no more decimal digits than binary ones. *)
Definition formatDecimal (n : Z) : list ascii :=
  decimal_go (S (Z.to_nat (Z.log2 n))) n [].

(** [fmt.Sprintf("%6d", r)]: the digits, with spaces in front of them up to
    a width of 6. *)
Definition Sprintf_6d (r : Rank) : list ascii :=
  let s := formatDecimal r in
  replicate (6 - length s) space ++ s.

(** [String]: the buffer is threaded through both loops. *)
Definition String (d : DijkstraMap) : list ascii :=
  foldl (λ buf row,
           foldl (λ buf' v, (buf' ++ Sprintf_6d v) ++ [comma; space]) buf row
           ++ [newline])
        [] (Points d).

(** What the loop body writes for one cell, and what the outer loop body
    writes for one row. *)
Definition writeCell (v : Rank) : list ascii := Sprintf_6d v ++ [comma; space].
Definition writeRow (row : list Rank) : list ascii := (row ≫= writeCell) ++ [newline].

(** Padding as the specification words it: the value first, the spaces to
    its right. *)
Definition padRight (w : nat) (s : list ascii) : list ascii :=
  s ++ replicate (w - length s) space.

(** The number a string of decimal digits denotes. *)
Definition decodeDecimal (s : list ascii) : Z :=
  foldl (λ a c, a * 10 + (Z.of_nat (nat_of_ascii c) - 48)) 0 s.

(** ** Grids and targets used in the examples *)

(** A [w] by [h] rectangle with the given passability. *)
Definition rectMap (w h : Z) (pass : Z → Z → bool) : Map :=
  mkMap w h pass (λ x y, negb ((0 <=? x) && (x <? w) && (0 <=? y) && (y <? h))).

Definition target (x y : Z) : WeightedPoint := mkWeightedPoint x y 0.

(** An open corridor, one cell wide, longer than [RankMax]. *)
Definition corridor : Map := rectMap 65527 1 (λ _ _, true).

(** [BlankDMap] followed by [Calc], returning the rank grid. *)
Definition blankCalc (fuel : nat) (m : Map) (nf : NeighbourFn) (ts : list WeightedPoint)
  : Outcome (list (list Rank)) :=
  match BlankDMap m nf with
  | None => Panicked
  | Some d =>
      match Calc fuel d ts with
      | Done d' => Done (Points d')
      | Panicked => Panicked
      | OutOfFuel => OutOfFuel
      end
  end.

(** ** Notions the properties are stated with *)

(** The cell [(x, y)] lies within the grid's dimensions. *)
Definition InBounds (m : Map) (x y : Z) : Prop :=
  0 ≤ x < SizeX m ∧ 0 ≤ y < SizeY m.

#[export] Instance InBounds_dec m x y : Decision (InBounds m x y).
Proof. unfold InBounds. apply _. Defined.

(** The grid contract: [OOB] agrees with [SizeX] and [SizeY]. *)
Definition MapOK (m : Map) : Prop :=
  ∀ x y, OOB m x y = true ↔ ¬ InBounds m x y.

(** The rank grid has the grid's dimensions (as [BlankDMap] allocates it). *)
Definition Shape (m : Map) (pts : list (list Rank)) : Prop :=
  Z.of_nat (length pts) = SizeX m ∧
  Forall (λ row, Z.of_nat (length row) = SizeY m) pts.

(** Every stored rank is a [uint16]. *)
Definition RanksOK (pts : list (list Rank)) : Prop :=
  Forall (Forall (λ r, 0 ≤ r ≤ MaxUint16)) pts.

(** Every stored rank is at most [RankMax]. *)
Definition Bounded (pts : list (list Rank)) : Prop :=
  Forall (Forall (λ r, r ≤ RankMax)) pts.

(** The sum of all ranks: the quantity every mutation lowers. *)
Definition rowTotal (row : list Rank) : Z := foldr Z.add 0 row.
Definition total (pts : list (list Rank)) : Z := foldr (λ row acc, rowTotal row + acc) 0 pts.

(** A topology given by a list of offsets: the neighbour function reads
    the cells at these offsets, in this order, through [GetValPoint]. *)
Definition offsetNeighbours (offs : list (Z * Z)) : NeighbourFn := λ pts m x y,
  mapM (λ o, GetValPoint pts m (x + o.1) (y + o.2)) offs.

Definition IsTopology (offs : list (Z * Z)) (nf : NeighbourFn) : Prop :=
  offs ≠ [] ∧ ∀ pts m x y, nf pts m x y = offsetNeighbours offs pts m x y.

Definition manhattanOffsets : list (Z * Z) :=
  [(1, 0); (-1, 0); (0, -1); (0, 1)].

Definition diagonalOffsets : list (Z * Z) :=
  [(1, 0); (-1, 0); (0, -1); (0, 1); (1, 1); (1, -1); (-1, 1); (-1, -1)].

(** The neighbour function answers, with at least one sample, at every
    cell of a rank grid of the grid's dimensions: [LowestNeighbour] can
    then take [vals[0]]. *)
Definition NeighbourFnOK (m : Map) (nf : NeighbourFn) : Prop :=
  ∀ pts x y, Shape m pts → InBounds m x y →
    ∃ v vals, nf pts m x y = Some (v :: vals).

(** [Hops m offs ts n c]: there is a walk of [n] unit hops from the cell
    [c] to a target; every cell the walk leaves is an in-bounds passable
    cell, and each hop follows one offset of the topology.  The target the
    walk ends on is any coordinate of [ts]. *)
Inductive Hops (m : Map) (offs : list (Z * Z)) (ts : list (Z * Z))
  : Z → Z * Z → Prop :=
| Hops_target c : c ∈ ts → Hops m offs ts 0 c
| Hops_step n c o :
    InBounds m c.1 c.2 →
    IsPassable m c.1 c.2 = true →
    o ∈ offs →
    Hops m offs ts n (c.1 + o.1, c.2 + o.2) →
    Hops m offs ts (n + 1) c.

(** [n] is the least number of hops from [c] to a target. *)
Definition MinHops (m : Map) (offs : list (Z * Z)) (ts : list (Z * Z))
  (n : Z) (c : Z * Z) : Prop :=
  Hops m offs ts n c ∧ ∀ k, Hops m offs ts k c → n ≤ k.

(** No target can be reached from [c]. *)
Definition Unreachable (m : Map) (offs : list (Z * Z)) (ts : list (Z * Z))
  (c : Z * Z) : Prop :=
  ∀ n, ¬ Hops m offs ts n c.

(** Every rank below [RankMax] is the length of some walk to a target. *)
Definition Sound (m : Map) (offs : list (Z * Z)) (ts : list (Z * Z))
  (pts : list (list Rank)) : Prop :=
  ∀ x y r, getPoint pts x y = Some r → r < RankMax → Hops m offs ts r (x, y).

(** The relaxation test at [(x, y)] changes nothing. *)
Definition Settled (m : Map) (nf : NeighbourFn) (pts : list (list Rank)) (x y : Z) : Prop :=
  relax m nf x y (pts, false) = Some (pts, false).

(** One relaxation test somewhere on the grid took the sweep state from
    [st] to [st']. *)
Definition RelaxStep (m : Map) (nf : NeighbourFn) (st st' : SweepState) : Prop :=
  ∃ x y, relax m nf x y st = Some st'.

(** [Calc] returns normally, leaving [d']. *)
Definition CalcReturns {P : Type} `{Point P} (d : DijkstraMap) (points : list P)
  (d' : DijkstraMap) : Prop :=
  ∃ fuel, Calc fuel d points = Done d'.

(** [Recalc] returns normally, leaving [d']. *)
Definition RecalcReturns {P : Type} `{Point P} (d : DijkstraMap) (points : list P)
  (d' : DijkstraMap) : Prop :=
  ∃ fuel, Recalc fuel d points = Done d'.

(** The map [d] is as [BlankDMap] and [Calc] leave it: the rank grid has
    the grid's dimensions and holds [uint16] values. *)
Definition WellFormed (d : DijkstraMap) : Prop :=
  Shape (M d) (Points d) ∧ RanksOK (Points d).

(** Every target lies within the grid's dimensions. *)
Definition TargetsInBounds {P : Type} `{Point P} (m : Map) (points : list P) : Prop :=
  Forall (λ p, InBounds m (GetXY p).1 (GetXY p).2) points.

(** The targets as coordinates. *)
Definition coords {P : Type} `{Point P} (points : list P) : list (Z * Z) :=
  GetXY <$> points.

(** Every coordinate of [ts] holds rank 0. *)
Definition TargetsZero (ts : list (Z * Z)) (pts : list (list Rank)) : Prop :=
  ∀ t, t ∈ ts → getPoint pts t.1 t.2 = Some 0.

(** What every field on the way from a blank map to the result of [Calc]
    satisfies, for the targets [ts] set so far. *)
Definition Admissible (m : Map) (offs : list (Z * Z)) (ts : list (Z * Z))
  (pts : list (list Rank)) : Prop :=
  Shape m pts ∧ RanksOK pts ∧ Bounded pts ∧ Sound m offs ts pts ∧ TargetsZero ts pts.

(** An admissible field on which no relaxation test changes anything. *)
Definition Converged (m : Map) (nf : NeighbourFn) (offs : list (Z * Z))
  (ts : list (Z * Z)) (pts : list (list Rank)) : Prop :=
  Admissible m offs ts pts ∧ ∀ x y, InBounds m x y → Settled m nf pts x y.

(** * Properties *)

(** ** The scenarios of the specification, by evaluation *)

Example scenario_3x3_manhattan :
  blankCalc 5 (rectMap 3 3 (λ _ _, true)) ManhattanNeighbours [target 1 1]
  = Done [[2; 1; 2]; [1; 0; 1]; [2; 1; 2]].
Proof. vm_compute. reflexivity. Qed.

Example scenario_3x3_diagonal :
  blankCalc 5 (rectMap 3 3 (λ _ _, true)) DiagonalNeighbours [target 1 1]
  = Done [[1; 1; 1]; [1; 0; 1]; [1; 1; 1]].
Proof. vm_compute. reflexivity. Qed.

Example scenario_1x3_blocked :
  blankCalc 5 (rectMap 1 3 (λ _ y, negb (y =? 1))) ManhattanNeighbours [target 0 0]
  = Done [[0; RankMax; RankMax]].
Proof. vm_compute. reflexivity. Qed.

(** ** Slices *)

Lemma index_Some {A} (l : list A) i a :
  index l i = Some a ↔ 0 ≤ i ∧ l !! Z.to_nat i = Some a.
Proof.
  unfold index. case_decide; [tauto|].
  split; [done | intros [? _]; lia].
Qed.

Lemma index_is_Some {A} (l : list A) i :
  is_Some (index l i) ↔ 0 ≤ i < Z.of_nat (length l).
Proof.
  unfold index. case_decide.
  - rewrite lookup_lt_is_Some. lia.
  - split; [intros [? ?]; done | lia].
Qed.

Lemma index_of_nat {A} (l : list A) (i : nat) : index l (Z.of_nat i) = l !! i.
Proof. unfold index. case_decide; [by rewrite Nat2Z.id | lia]. Qed.

Lemma getPoint_Some pts x y r :
  getPoint pts x y = Some r ↔ ∃ row, index pts x = Some row ∧ index row y = Some r.
Proof.
  unfold getPoint. destruct (index pts x) as [row|]; simpl.
  - split; [by exists row | by intros (? & [= <-] & ?)].
  - split; [done | by intros (? & ? & ?)].
Qed.

Lemma setPoint_Some pts x y v pts' :
  setPoint pts x y v = Some pts' ↔
  ∃ row old, index pts x = Some row ∧ index row y = Some old ∧
             pts' = <[Z.to_nat x := <[Z.to_nat y := v]> row]> pts.
Proof.
  unfold setPoint. destruct (index pts x) as [row|]; simpl.
  - destruct (index row y) as [old|] eqn:Hy; simpl.
    + split; [intros [= <-]; by exists row, old |].
      by intros (? & ? & [= <-] & _ & ->).
    + split; [done | intros (? & ? & [= <-] & ? & _); congruence].
  - split; [done | by intros (? & ? & ? & _)].
Qed.

Lemma setPoint_is_Some pts x y v :
  is_Some (setPoint pts x y v) ↔ is_Some (getPoint pts x y).
Proof.
  unfold setPoint, getPoint. destruct (index pts x) as [row|]; simpl.
  - destruct (index row y); simpl; split; intros [? ?]; done.
  - split; intros [? ?]; done.
Qed.

Lemma index_insert_eq {A} (l : list A) i a :
  is_Some (index l i) → index (<[Z.to_nat i := a]> l) i = Some a.
Proof.
  intros [b Hb]. apply index_Some in Hb as [Hi Hb].
  apply index_Some. split; [done|].
  apply list_lookup_insert_eq. by eapply lookup_lt_Some.
Qed.

Lemma index_insert_ne {A} (l : list A) i j a :
  0 ≤ i → j ≠ i → index (<[Z.to_nat i := a]> l) j = index l j.
Proof.
  intros Hi Hne. unfold index. case_decide; [|done].
  apply list_lookup_insert_ne. intros Heq.
  apply Z2Nat.inj in Heq; [congruence | done..].
Qed.

Lemma getPoint_setPoint_eq pts x y v pts' :
  setPoint pts x y v = Some pts' → getPoint pts' x y = Some v.
Proof.
  rewrite setPoint_Some. intros (row & old & Hx & Hy & ->).
  unfold getPoint. rewrite index_insert_eq by eauto. simpl.
  apply index_insert_eq. eauto.
Qed.

Lemma getPoint_setPoint_ne pts x y v pts' x' y' :
  setPoint pts x y v = Some pts' → (x', y') ≠ (x, y) →
  getPoint pts' x' y' = getPoint pts x' y'.
Proof.
  rewrite setPoint_Some. intros (row & old & Hx & Hy & ->) Hne.
  assert (0 ≤ x) by (by apply index_Some in Hx as [? _]).
  assert (0 ≤ y) by (by apply index_Some in Hy as [? _]).
  unfold getPoint. destruct (decide (x' = x)) as [->|Hxx].
  - rewrite index_insert_eq by eauto. rewrite Hx. simpl.
    apply index_insert_ne; [done|congruence].
  - by rewrite index_insert_ne.
Qed.

Lemma getPoint_setPoint pts x y v pts' x' y' :
  setPoint pts x y v = Some pts' →
  getPoint pts' x' y' = if decide ((x', y') = (x, y)) then Some v else getPoint pts x' y'.
Proof.
  intros Hset. case_decide as Heq.
  - injection Heq as -> ->. by eapply getPoint_setPoint_eq.
  - by eapply getPoint_setPoint_ne.
Qed.

Lemma setPoint_same pts x y v :
  getPoint pts x y = Some v → setPoint pts x y v = Some pts.
Proof.
  rewrite getPoint_Some. intros (row & Hx & Hy).
  apply setPoint_Some. exists row, v. split_and!; [done..|].
  apply index_Some in Hx as [_ Hx]. apply index_Some in Hy as [_ Hy].
  by rewrite (list_insert_id row), list_insert_id.
Qed.

(** ** Shape, rank ranges and the total under a write *)

Lemma Shape_getPoint m pts x y :
  Shape m pts → is_Some (getPoint pts x y) ↔ InBounds m x y.
Proof.
  intros [Hlen Hrows]. unfold InBounds. split.
  - intros [r Hr]. apply getPoint_Some in Hr as (row & Hx & Hy).
    assert (is_Some (index pts x)) as Hx' by eauto.
    assert (is_Some (index row y)) as Hy' by eauto.
    apply index_is_Some in Hx', Hy'.
    apply index_Some in Hx as [_ Hx].
    rewrite Forall_lookup in Hrows. specialize (Hrows _ _ Hx). simpl in Hrows. lia.
  - intros [Hx Hy].
    destruct (proj2 (index_is_Some pts x)) as [row Hrow]; [lia|].
    pose proof Hrow as Hrow'. apply index_Some in Hrow' as [_ Hrow'].
    rewrite Forall_lookup in Hrows. specialize (Hrows _ _ Hrow'). simpl in Hrows.
    destruct (proj2 (index_is_Some row y)) as [r Hr]; [lia|].
    exists r. apply getPoint_Some. eauto.
Qed.

Lemma setPoint_Shape m pts x y v pts' :
  Shape m pts → setPoint pts x y v = Some pts' → Shape m pts'.
Proof.
  intros [Hlen Hrows]. rewrite setPoint_Some. intros (row & old & Hx & Hy & ->).
  split; [by rewrite length_insert|].
  apply Forall_insert; [done|]. rewrite length_insert.
  apply index_Some in Hx as [_ Hx].
  rewrite Forall_lookup in Hrows. exact (Hrows _ _ Hx).
Qed.

Lemma setPoint_Forall (Q : Rank → Prop) pts x y v pts' :
  Forall (Forall Q) pts → Q v → setPoint pts x y v = Some pts' →
  Forall (Forall Q) pts'.
Proof.
  intros Hall Hv. rewrite setPoint_Some. intros (row & old & Hx & Hy & ->).
  apply Forall_insert; [done|]. apply Forall_insert; [|done].
  apply index_Some in Hx as [_ Hx].
  rewrite Forall_lookup in Hall. exact (Hall _ _ Hx).
Qed.

Lemma getPoint_Forall (Q : Rank → Prop) pts x y r :
  Forall (Forall Q) pts → getPoint pts x y = Some r → Q r.
Proof.
  intros Hall. rewrite getPoint_Some. intros (row & Hx & Hy).
  apply index_Some in Hx as [_ Hx]. apply index_Some in Hy as [_ Hy].
  rewrite Forall_lookup in Hall. specialize (Hall _ _ Hx). simpl in Hall.
  rewrite Forall_lookup in Hall. exact (Hall _ _ Hy).
Qed.

Lemma Forall_getPoint (Q : Rank → Prop) pts :
  (∀ x y r, getPoint pts x y = Some r → Q r) → Forall (Forall Q) pts.
Proof.
  intros Hall. apply Forall_lookup. intros i row Hi.
  apply Forall_lookup. intros j r Hj.
  apply (Hall (Z.of_nat i) (Z.of_nat j)). apply getPoint_Some.
  exists row. by rewrite !index_of_nat.
Qed.

Lemma rowTotal_insert row i old v :
  row !! i = Some old → rowTotal (<[i := v]> row) = rowTotal row - old + v.
Proof.
  unfold rowTotal. revert i.
  induction row as [|a row IH]; intros [|i] Hi; simplify_eq/=.
  - lia.
  - specialize (IH _ Hi). simpl in IH. lia.
Qed.

Lemma total_insert pts i row row' :
  pts !! i = Some row → total (<[i := row']> pts) = total pts - rowTotal row + rowTotal row'.
Proof.
  unfold total. revert i.
  induction pts as [|a pts IH]; intros [|i] Hi; simplify_eq/=.
  - lia.
  - specialize (IH _ Hi). simpl in IH. lia.
Qed.

Lemma total_setPoint pts x y v pts' old :
  getPoint pts x y = Some old → setPoint pts x y v = Some pts' →
  total pts' = total pts - old + v.
Proof.
  rewrite getPoint_Some, setPoint_Some.
  intros (row & Hx & Hy) (row' & old' & Hx' & Hy' & ->). simplify_eq.
  apply index_Some in Hx as [_ Hx]. apply index_Some in Hy as [_ Hy].
  rewrite (total_insert _ _ _ _ Hx), (rowTotal_insert _ _ _ _ Hy). lia.
Qed.

Lemma rowTotal_nonneg row : Forall (λ r, 0 ≤ r ≤ MaxUint16) row → 0 ≤ rowTotal row.
Proof. unfold rowTotal. induction 1; simpl; lia. Qed.

Lemma total_nonneg pts : RanksOK pts → 0 ≤ total pts.
Proof.
  unfold total. induction 1 as [|row pts Hrow _ IH]; simpl; [lia|].
  apply rowTotal_nonneg in Hrow. lia.
Qed.

(** ** Lookups and neighbours *)

Lemma GetValPoint_Some pts m x y wp :
  GetValPoint pts m x y = Some wp ↔
  (OOB m x y = true ∧ wp = mkWeightedPoint x y RankMax) ∨
  (OOB m x y = false ∧ ∃ v, getPoint pts x y = Some v ∧ wp = mkWeightedPoint x y v).
Proof.
  unfold GetValPoint. destruct (OOB m x y).
  - split; [intros [= <-]; by left | intros [[_ ->]|[? _]]; done].
  - destruct (getPoint pts x y) as [v|]; simpl.
    + split; [intros [= <-]; right; eauto |].
      intros [[? _]|[_ (v' & [= <-] & ->)]]; done.
    + split; [done | intros [[? _]|[_ (v' & ? & _)]]; done].
Qed.

Lemma GetValPoint_total pts m x y :
  MapOK m → Shape m pts → is_Some (GetValPoint pts m x y).
Proof.
  intros Hok Hshape. unfold GetValPoint.
  destruct (OOB m x y) eqn:Hoob; [eauto|].
  assert (InBounds m x y) as Hin.
  { destruct (decide (InBounds m x y)) as [|Hn]; [done|].
    apply Hok in Hn. congruence. }
  apply (Shape_getPoint _ _ _ _ Hshape) in Hin as [v ->]. simpl. eauto.
Qed.

Lemma lowest_scan_spec vals lv ret :
  let r := lowest_scan vals lv ret in
  (∀ v, v ∈ vals → r.1 ≤ Val v) ∧
  ((r.1 = lv ∧ r.2 = ret) ∨ (r.1 < lv ∧ r.2 ∈ vals ∧ Val r.2 = r.1)).
Proof.
  unfold lowest_scan. revert lv ret.
  induction vals as [|val vals IH]; intros lv ret; simpl.
  - split; [intros v Hv; by apply elem_of_nil in Hv | by left].
  - case_decide as Hlt; simpl.
    + destruct (IH (Val val) val) as [Hmin Hcase]. split.
      * intros v [->|Hv]%elem_of_cons; [|by apply Hmin].
        destruct Hcase as [[-> _]|[? _]]; lia.
      * right. destruct Hcase as [[-> ->]|(? & ? & ?)].
        -- split_and!; [done| apply elem_of_cons; by left |done].
        -- split_and!; [lia| apply elem_of_cons; by right |done].
    + destruct (IH lv ret) as [Hmin Hcase]. split.
      * intros v [->|Hv]%elem_of_cons; [|by apply Hmin].
        destruct Hcase as [[-> _]|[? _]]; lia.
      * destruct Hcase as [?|(? & ? & ?)]; [by left|].
        right. split_and!; [done| apply elem_of_cons; by right |done].
Qed.

Lemma LowestNeighbour_Some d x y wp :
  LowestNeighbour d x y = Some wp →
  ∃ vals v0, NeigbourFunc d (Points d) (M d) x y = Some vals ∧
    vals !! 0%nat = Some v0 ∧ wp ∈ vals ∧
    (((∀ v, v ∈ vals → RankMax ≤ Val v) ∧ wp = v0) ∨
     (Val wp < RankMax ∧ ∀ v, v ∈ vals → Val wp ≤ Val v)).
Proof.
  unfold LowestNeighbour.
  destruct (NeigbourFunc d (Points d) (M d) x y) as [vals|]; simpl; [|done].
  destruct (vals !! 0%nat) as [v0|] eqn:Hv0; simpl; [|done].
  intros [= <-]. exists vals, v0. split_and!; [done..| |].
  - destruct (lowest_scan_spec vals RankMax v0) as [_ [[_ ->]|(_ & ? & _)]]; [|done].
    by eapply list_elem_of_lookup_2.
  - destruct (lowest_scan_spec vals RankMax v0) as [Hmin [[Heq ->]|(Hlt & _ & Hval)]].
    + left. split; [|done]. intros v Hv. rewrite <- Heq. by apply Hmin.
    + right. rewrite Hval. split; [done | exact Hmin].
Qed.

Lemma LowestNeighbour_is_Some d x y vals v0 :
  NeigbourFunc d (Points d) (M d) x y = Some vals → vals !! 0%nat = Some v0 →
  is_Some (LowestNeighbour d x y).
Proof. intros Hnf Hv0. unfold LowestNeighbour. rewrite Hnf. simpl. rewrite Hv0. simpl. eauto. Qed.

Lemma Forall2_elem_of_l {A B} (R : A → B → Prop) l k a :
  Forall2 R l k → a ∈ l → ∃ b, b ∈ k ∧ R a b.
Proof.
  induction 1 as [|a' b' l k HR _ IH]; intros Ha.
  - by apply elem_of_nil in Ha.
  - apply elem_of_cons in Ha as [->|Ha].
    + exists b'. split; [apply elem_of_cons; by left | done].
    + destruct (IH Ha) as (b & ? & ?). exists b. split; [apply elem_of_cons; by right | done].
Qed.

Lemma Forall2_elem_of_r {A B} (R : A → B → Prop) l k b :
  Forall2 R l k → b ∈ k → ∃ a, a ∈ l ∧ R a b.
Proof.
  induction 1 as [|a' b' l k HR _ IH]; intros Hb.
  - by apply elem_of_nil in Hb.
  - apply elem_of_cons in Hb as [->|Hb].
    + exists a'. split; [apply elem_of_cons; by left | done].
    + destruct (IH Hb) as (a & ? & ?). exists a. split; [apply elem_of_cons; by right | done].
Qed.

Lemma offsetNeighbours_Some offs pts m x y vals :
  offsetNeighbours offs pts m x y = Some vals →
  (∀ o, o ∈ offs → ∃ wp, wp ∈ vals ∧ GetValPoint pts m (x + o.1) (y + o.2) = Some wp) ∧
  (∀ wp, wp ∈ vals → ∃ o, o ∈ offs ∧ GetValPoint pts m (x + o.1) (y + o.2) = Some wp) ∧
  length vals = length offs.
Proof.
  unfold offsetNeighbours. rewrite mapM_Some. intros HF. split_and!.
  - intros o Ho. destruct (Forall2_elem_of_l _ _ _ _ HF Ho) as (wp & ? & ?). eauto.
  - intros wp Hwp. destruct (Forall2_elem_of_r _ _ _ _ HF Hwp) as (o & ? & ?). eauto.
  - symmetry. by eapply Forall2_length.
Qed.

Lemma offsetNeighbours_total offs pts m x y :
  MapOK m → Shape m pts → is_Some (offsetNeighbours offs pts m x y).
Proof.
  intros Hok Hshape. unfold offsetNeighbours. apply mapM_is_Some.
  apply Forall_forall. intros o _. simpl. by apply GetValPoint_total.
Qed.

Lemma ManhattanNeighbours_topology : IsTopology manhattanOffsets ManhattanNeighbours.
Proof.
  split; [done|]. intros pts m x y.
  unfold ManhattanNeighbours, offsetNeighbours, manhattanOffsets. simpl.
  rewrite !Z.add_0_r. replace (x + -1) with (x - 1) by lia.
  replace (y + -1) with (y - 1) by lia.
  repeat (match goal with |- context [GetValPoint ?p ?m ?a ?b] =>
            destruct (GetValPoint p m a b); simpl; try done end).
Qed.

Lemma DiagonalNeighbours_topology : IsTopology diagonalOffsets DiagonalNeighbours.
Proof.
  split; [done|]. intros pts m x y.
  unfold DiagonalNeighbours, offsetNeighbours, diagonalOffsets. simpl.
  rewrite !Z.add_0_r. replace (x + -1) with (x - 1) by lia.
  replace (y + -1) with (y - 1) by lia.
  repeat (match goal with |- context [GetValPoint ?p ?m ?a ?b] =>
            destruct (GetValPoint p m a b); simpl; try done end).
Qed.

(** ** The relaxation test *)

Lemma rank_succ_small r : 0 ≤ r < MaxUint16 → rank_succ r = r + 1.
Proof. intros Hr. unfold rank_succ. apply Z.mod_small. lia. Qed.

Lemma rank_succ_range r : 0 ≤ rank_succ r ≤ MaxUint16.
Proof.
  unfold rank_succ, MaxUint16.
  pose proof (Z.mod_pos_bound (r + 1) (65535 + 1)). lia.
Qed.

Lemma relax_cases m nf x y pts mut pts' mut' :
  relax m nf x y (pts, mut) = Some (pts', mut') →
  (pts' = pts ∧ mut' = mut) ∨
  (IsPassable m x y = true ∧ mut' = true ∧
   ∃ wp cur, LowestNeighbour (mkDijkstraMap pts m nf) x y = Some wp ∧
     getPoint pts x y = Some cur ∧ rank_succ (Val wp) < cur ∧
     setPoint pts x y (rank_succ (Val wp)) = Some pts').
Proof.
  unfold relax. simpl. destruct (IsPassable m x y); [|intros [= <- <-]; by left].
  destruct (LowestNeighbour _ x y) as [wp|] eqn:Hln; simpl; [|done].
  destruct (getPoint pts x y) as [cur|] eqn:Hcur; simpl; [|done].
  case_decide as Hgt; [|intros [= <- <-]; by left].
  destruct (setPoint pts x y _) as [pts''|] eqn:Hset; simpl; [|done].
  intros [= <- <-]. right. split_and!; [done..|].
  exists wp, cur. split_and!; [done..|lia|done].
Qed.

Lemma relax_false m nf x y pts mut pts' :
  relax m nf x y (pts, mut) = Some (pts', false) → mut = false ∧ pts' = pts.
Proof. intros [[-> ->]|(_ & ? & _)]%relax_cases; done. Qed.

Lemma Settled_passable m nf pts x y :
  Settled m nf pts x y → IsPassable m x y = true →
  ∃ wp cur, LowestNeighbour (mkDijkstraMap pts m nf) x y = Some wp ∧
    getPoint pts x y = Some cur ∧ cur ≤ rank_succ (Val wp).
Proof.
  unfold Settled, relax. simpl. intros Hrel Hpass. rewrite Hpass in Hrel.
  destruct (LowestNeighbour _ x y) as [wp|] eqn:Hln; simpl in *; [|done].
  destruct (getPoint pts x y) as [cur|] eqn:Hcur; simpl in *; [|done].
  exists wp, cur. split_and!; [done..|].
  case_decide as Hgt; [|lia].
  destruct (setPoint pts x y _); simpl in *; done.
Qed.

(** ** Loops as sequences of relaxation tests *)

Lemma forRange_rtc {St} (R : relation St) body from n (s s' : St) :
  (∀ i s s', body i s = Some s' → rtc R s s') →
  forRange from n body s = Some s' → rtc R s s'.
Proof.
  intros Hbody. revert from s. induction n as [|n IH]; intros from s; simpl.
  - intros [= <-]. done.
  - destruct (body from s) as [s1|] eqn:Hb; simpl; [|done].
    intros Hrest. etrans; [by eapply Hbody | by eapply IH].
Qed.

Lemma visit_rtc m nf x y st st' :
  visit m nf x y st = Some st' → rtc (RelaxStep m nf) st st'.
Proof.
  unfold visit. destruct (relax m nf x y st) as [st1|] eqn:H1; simpl; [|done].
  intros H2. eapply rtc_l; [by exists x, y|]. eapply rtc_once. by eexists _, _.
Qed.

Lemma sweep_rtc m nf pts st' :
  sweep m nf pts = Some st' → rtc (RelaxStep m nf) (pts, false) st'.
Proof.
  unfold sweep. apply forRange_rtc. intros x s s'.
  destruct (index s.1 x) as [row|]; simpl; [|done].
  apply forRange_rtc. intros y. apply visit_rtc.
Qed.

Lemma RelaxStep_rtc_inv m nf (Inv : SweepState → Prop) st st' :
  (∀ x y s s', Inv s → relax m nf x y s = Some s' → Inv s') →
  rtc (RelaxStep m nf) st st' → Inv st → Inv st'.
Proof.
  intros Hstep. induction 1 as [|s1 s2 s3 (x & y & Hrel) _ IH]; [done|].
  intros Hs1. apply IH. by eapply Hstep.
Qed.

Lemma sweep_inv m nf (Inv : list (list Rank) → Prop) pts st' :
  (∀ x y pts mut s', Inv pts → relax m nf x y (pts, mut) = Some s' → Inv s'.1) →
  Inv pts → sweep m nf pts = Some st' → Inv st'.1.
Proof.
  intros Hstep Hpts Hsw%sweep_rtc.
  eapply (RelaxStep_rtc_inv m nf (λ s, Inv s.1)); [|done..].
  intros x y [p mu] s'. apply Hstep.
Qed.

Lemma relaxLoop_inv m nf (Inv : list (list Rank) → Prop) fuel pts pts' :
  (∀ x y pts mut s', Inv pts → relax m nf x y (pts, mut) = Some s' → Inv s'.1) →
  Inv pts → relaxLoop fuel m nf pts = Done pts' → Inv pts'.
Proof.
  intros Hstep. revert pts. induction fuel as [|fuel IH]; intros pts Hpts; simpl; [done|].
  destruct (sweep m nf pts) as [[p mu]|] eqn:Hsw; [|done].
  pose proof (sweep_inv _ _ _ _ _ Hstep Hpts Hsw) as Hp. simpl in Hp.
  destruct mu; [by apply IH | by intros [= <-]].
Qed.

(** A sweep never raises a rank, and a sweep that reports a mutation has
    lowered the total. *)
Lemma sweep_total_decreases m nf pts pts' mut :
  sweep m nf pts = Some (pts', mut) →
  total pts' ≤ total pts ∧ (mut = true → total pts' < total pts).
Proof.
  intros Hsw%sweep_rtc.
  apply (RelaxStep_rtc_inv m nf
    (λ s, total s.1 ≤ total pts ∧ (s.2 = true → total s.1 < total pts)) _ _ ) in Hsw;
    [done| |simpl; split; [lia|done]].
  intros x y [p mu] [p' mu'] [Hle Hlt] Hrel. simpl in *.
  apply relax_cases in Hrel as [[-> ->]|(_ & -> & wp & cur & _ & Hcur & Hnew & Hset)]; [done|].
  rewrite (total_setPoint _ _ _ _ _ _ Hcur Hset). split; [lia|intros _; lia].
Qed.

(** A pass that reports no mutation has changed nothing, and found every
    cell of the grid settled. *)
Lemma forRange_quiet (Q : Z → list (list Rank) → Prop) body from n (s s' : SweepState) :
  (∀ i s s', from ≤ i < from + Z.of_nat n → body i s = Some s' → s'.2 = false →
             s.2 = false ∧ s'.1 = s.1 ∧ Q i s.1) →
  forRange from n body s = Some s' → s'.2 = false →
  s.2 = false ∧ s'.1 = s.1 ∧ ∀ i, from ≤ i < from + Z.of_nat n → Q i s.1.
Proof.
  revert from s. induction n as [|n IH]; intros from s Hbody; simpl.
  - intros [= <-] Hq. split_and!; [done..|]. intros i Hi. lia.
  - destruct (body from s) as [s1|] eqn:Hb; simpl; [|done].
    intros Hrest Hq.
    destruct (IH (from + 1) s1) as (Hq1 & Heq1 & Hall1); [|done..|].
    { intros i t t' Hi. apply Hbody. lia. }
    destruct (Hbody from s s1) as (Hq0 & Heq0 & HQ0); [lia|done..|].
    split_and!; [done|congruence|].
    intros i Hi. destruct (decide (i = from)) as [->|Hne]; [done|].
    rewrite <- Heq0. apply Hall1. lia.
Qed.

Lemma visit_quiet m nf x y (s s' : SweepState) :
  visit m nf x y s = Some s' → s'.2 = false →
  s.2 = false ∧ s'.1 = s.1 ∧ Settled m nf s.1 x y.
Proof.
  unfold visit. destruct (relax m nf x y s) as [[p1 mu1]|] eqn:H1; simpl; [|done].
  destruct s as [p mu], s' as [p' mu']. simpl. intros H2 ->.
  apply relax_false in H2 as [-> ->].
  pose proof H1 as H1'. apply relax_false in H1' as [-> ->]. done.
Qed.

Lemma sweep_quiet m nf pts pts' :
  Shape m pts → sweep m nf pts = Some (pts', false) →
  pts' = pts ∧ ∀ x y, InBounds m x y → Settled m nf pts x y.
Proof.
  intros [Hlen Hrows] Hsw. unfold sweep in Hsw.
  apply (forRange_quiet (λ x p, ∀ row, index p x = Some row →
           ∀ y, 0 ≤ y < 0 + Z.of_nat (length row) → Settled m nf p x y)) in Hsw
    as (_ & Heq & Hall); [| |done].
  - simpl in *. split; [done|]. intros x y [Hx Hy].
    destruct (proj2 (index_is_Some pts x)) as [row Hrow]; [lia|].
    apply (Hall x ltac:(lia) row Hrow).
    apply index_Some in Hrow as [_ Hrow].
    rewrite Forall_lookup in Hrows. specialize (Hrows _ _ Hrow). simpl in Hrows. lia.
  - intros x s s' Hx Hbody Hq.
    destruct (index s.1 x) as [row|] eqn:Hrow; simpl in Hbody; [|done].
    apply (forRange_quiet (λ y p, Settled m nf p x y)) in Hbody
      as (Hq0 & Heq0 & Hall0); [| |done].
    + split_and!; [done..|]. intros row' Hrow'. by simplify_eq.
    + intros y t t' _. apply visit_quiet.
Qed.

(** ** What a relaxation test preserves *)

Lemma relax_Shape m nf x y pts mut s' :
  Shape m pts → relax m nf x y (pts, mut) = Some s' → Shape m s'.1.
Proof.
  intros Hshape Hrel. destruct s' as [p' mu'].
  apply relax_cases in Hrel as [[-> _]|(_ & _ & wp & cur & _ & _ & _ & Hset)]; [done|].
  by eapply setPoint_Shape.
Qed.

Lemma relax_RanksOK m nf x y pts mut s' :
  RanksOK pts → relax m nf x y (pts, mut) = Some s' → RanksOK s'.1.
Proof.
  intros Hok Hrel. destruct s' as [p' mu'].
  apply relax_cases in Hrel as [[-> _]|(_ & _ & wp & cur & _ & _ & _ & Hset)]; [done|].
  eapply setPoint_Forall; [done| |done]. apply rank_succ_range.
Qed.

(** Ranks only ever go down, so the bound [RankMax] survives every test,
    whatever the neighbour function reports. *)
Lemma relax_Bounded m nf x y pts mut s' :
  Bounded pts → relax m nf x y (pts, mut) = Some s' → Bounded s'.1.
Proof.
  intros Hb Hrel. destruct s' as [p' mu'].
  apply relax_cases in Hrel as [[-> _]|(_ & _ & wp & cur & _ & Hcur & Hlt & Hset)]; [done|].
  eapply setPoint_Forall; [done| |done].
  pose proof (getPoint_Forall _ _ _ _ _ Hb Hcur) as Hc. simpl in Hc. lia.
Qed.

(** A rank that is 0 stays 0. *)
Lemma relax_zero m nf x y pts mut s' x0 y0 :
  getPoint pts x0 y0 = Some 0 →
  relax m nf x y (pts, mut) = Some s' → getPoint s'.1 x0 y0 = Some 0.
Proof.
  intros H0 Hrel. destruct s' as [p' mu'].
  apply relax_cases in Hrel as [[-> _]|(_ & _ & wp & cur & _ & Hcur & Hlt & Hset)]; [done|].
  simpl. rewrite (getPoint_setPoint _ _ _ _ _ _ _ Hset). case_decide as Heq; [|done].
  injection Heq as -> ->. pose proof (rank_succ_range (Val wp)).
  rewrite H0 in Hcur. injection Hcur as <-. lia.
Qed.

(** A relaxation test leaves every rank where it is or lowers it, never
    below 0. *)
Lemma relax_lowers m nf x y pts mut s' x0 y0 r0 :
  getPoint pts x0 y0 = Some r0 → relax m nf x y (pts, mut) = Some s' →
  ∃ r', getPoint s'.1 x0 y0 = Some r' ∧ (r' = r0 ∨ 0 ≤ r' < r0).
Proof.
  intros Hr0 Hrel. destruct s' as [p' mu'].
  apply relax_cases in Hrel as [[-> _]|(_ & _ & wp & cur & _ & Hcur & Hlt & Hset)];
    [eauto|].
  simpl. rewrite (getPoint_setPoint _ _ _ _ _ _ _ Hset). case_decide as Heq; [|eauto].
  injection Heq as -> ->. eexists. split; [done|]. right.
  pose proof (rank_succ_range (Val wp)). assert (cur = r0) by congruence. lia.
Qed.

Lemma relaxLoop_lowers m nf fuel pts pts' x y r :
  RanksOK pts → relaxLoop fuel m nf pts = Done pts' → getPoint pts x y = Some r →
  ∃ r', getPoint pts' x y = Some r' ∧ 0 ≤ r' ≤ r.
Proof.
  intros Hranks Hloop Hr.
  apply (relaxLoop_inv m nf (λ q, ∃ r', getPoint q x y = Some r' ∧ 0 ≤ r' ≤ r)) in Hloop;
    [done| |].
  - intros x1 y1 q mut s' (r1 & Hr1 & Hle) Hrel.
    destruct (relax_lowers _ _ _ _ _ _ _ _ _ _ Hr1 Hrel) as (r2 & Hr2 & Hcase).
    exists r2. split; [done|]. lia.
  - exists r. split; [done|].
    pose proof (getPoint_Forall _ _ _ _ _ Hranks Hr) as H0. simpl in H0. lia.
Qed.

(** ** Absence of panics and termination *)

Lemma forRange_total {St} (Inv : St → Prop) body from n (s : St) :
  (∀ i s, from ≤ i < from + Z.of_nat n → Inv s → ∃ s', body i s = Some s' ∧ Inv s') →
  Inv s → ∃ s', forRange from n body s = Some s' ∧ Inv s'.
Proof.
  revert from s. induction n as [|n IH]; intros from s Hbody Hs; simpl; [eauto|].
  destruct (Hbody from s) as (s1 & -> & Hs1); [lia|done|]. simpl.
  apply IH; [|done]. intros i t Hi. apply Hbody. lia.
Qed.

(** The two reference topologies, and every offset topology, answer
    everywhere on a grid whose [OOB] agrees with its dimensions. *)
Lemma topology_NeighbourFnOK m nf offs :
  MapOK m → IsTopology offs nf → NeighbourFnOK m nf.
Proof.
  intros Hok [Hne Hnf] pts x y Hshape _. rewrite Hnf.
  destruct (offsetNeighbours_total offs pts m x y Hok Hshape) as [vals Hvals].
  pose proof Hvals as (_ & _ & Hlen)%offsetNeighbours_Some.
  destruct vals as [|v0 vals]; [by destruct offs | eauto].
Qed.

Section Engine.
Context (m : Map) (nf : NeighbourFn).
Hypothesis HnfOK : NeighbourFnOK m nf.

Lemma LowestNeighbour_total pts x y :
  Shape m pts → InBounds m x y →
  is_Some (LowestNeighbour (mkDijkstraMap pts m nf) x y).
Proof.
  intros Hshape Hin. destruct (HnfOK pts x y Hshape Hin) as (v0 & vals & Hvals).
  by eapply (LowestNeighbour_is_Some _ _ _ (v0 :: vals) v0).
Qed.

Lemma relax_total pts mut x y :
  Shape m pts → InBounds m x y → is_Some (relax m nf x y (pts, mut)).
Proof.
  intros Hshape Hin. unfold relax. simpl. destruct (IsPassable m x y); [|eauto].
  destruct (LowestNeighbour_total pts x y Hshape Hin) as [wp ->]. simpl.
  pose proof Hin as [cur Hcur]%(Shape_getPoint _ _ _ _ Hshape). rewrite Hcur. simpl.
  case_decide; [|eauto].
  destruct (proj2 (setPoint_is_Some pts x y (rank_succ (Val wp)))) as [p' ->]; eauto.
Qed.

Lemma visit_total pts mut x y :
  Shape m pts → InBounds m x y →
  ∃ s', visit m nf x y (pts, mut) = Some s' ∧ Shape m s'.1.
Proof.
  intros Hshape Hin. unfold visit.
  destruct (relax_total pts mut x y Hshape Hin) as [[p1 mu1] H1]. rewrite H1. simpl.
  pose proof (relax_Shape _ _ _ _ _ _ _ Hshape H1) as Hshape1. simpl in Hshape1.
  destruct (relax_total p1 mu1 (SizeX m - 1 - x) (SizeY m - 1 - y) Hshape1) as [s' H2].
  { unfold InBounds in *. lia. }
  exists s'. split; [done|]. by eapply relax_Shape.
Qed.

Lemma sweep_total pts :
  Shape m pts → ∃ s', sweep m nf pts = Some s' ∧ Shape m s'.1.
Proof.
  intros Hshape. unfold sweep.
  apply (forRange_total (λ s : SweepState, Shape m s.1)); [|done].
  intros x [p mu] Hx Hp. simpl in *.
  destruct Hshape as [Hlen _]. pose proof Hp as [Hlenp Hrowsp].
  destruct (proj2 (index_is_Some p x)) as [row Hrow]; [lia|].
  rewrite Hrow. simpl.
  apply (forRange_total (λ s : SweepState, Shape m s.1)); [|done].
  intros y [q mu'] Hy Hq. apply visit_total; [done|].
  apply index_Some in Hrow as [_ Hrow].
  rewrite Forall_lookup in Hrowsp. specialize (Hrowsp _ _ Hrow). simpl in Hrowsp.
  unfold InBounds. lia.
Qed.

(** The loop stops within [total pts + 1] passes. *)
Lemma relaxLoop_terminates fuel pts :
  Shape m pts → RanksOK pts → total pts < Z.of_nat fuel →
  ∃ pts', relaxLoop fuel m nf pts = Done pts'.
Proof.
  revert pts. induction fuel as [|fuel IH]; intros pts Hshape Hranks Hfuel.
  - apply total_nonneg in Hranks. lia.
  - simpl. destruct (sweep_total pts Hshape) as ([p mu] & Hsw & Hshape').
    rewrite Hsw. destruct mu; [|eauto].
    apply IH; [done| |].
    + eapply (sweep_inv m nf RanksOK) in Hsw; [done| |done].
      intros ? ? ? ? ?. apply relax_RanksOK.
    + apply sweep_total_decreases in Hsw as [_ Hlt]. specialize (Hlt eq_refl). lia.
Qed.

(** When the loop stops, the last pass found every cell settled. *)
Lemma relaxLoop_Done_settled fuel pts pts' :
  Shape m pts → relaxLoop fuel m nf pts = Done pts' →
  sweep m nf pts' = Some (pts', false) ∧ ∀ x y, InBounds m x y → Settled m nf pts' x y.
Proof.
  revert pts. induction fuel as [|fuel IH]; intros pts Hshape; simpl; [done|].
  destruct (sweep m nf pts) as [[p mu]|] eqn:Hsw; [|done].
  destruct mu.
  - apply IH. eapply (sweep_inv m nf (Shape m)) in Hsw; [done| |done].
    intros ? ? ? ? ?. apply relax_Shape.
  - intros [= <-]. pose proof (sweep_quiet _ _ _ _ Hshape Hsw) as [-> Hall]. done.
Qed.
End Engine.

Lemma relaxLoop_fuel_mono m nf fuel fuel' pts pts' :
  relaxLoop fuel m nf pts = Done pts' → (fuel ≤ fuel')%nat →
  relaxLoop fuel' m nf pts = Done pts'.
Proof.
  revert fuel' pts. induction fuel as [|fuel IH]; intros fuel' pts; simpl; [done|].
  intros Hrun Hle. destruct fuel' as [|fuel']; [lia|]. simpl.
  destruct (sweep m nf pts) as [[p mu]|]; [|done].
  destruct mu; [|done]. apply IH; [done|lia].
Qed.

Lemma relaxLoop_functional m nf fuel1 fuel2 pts p1 p2 :
  relaxLoop fuel1 m nf pts = Done p1 → relaxLoop fuel2 m nf pts = Done p2 → p1 = p2.
Proof.
  intros H1 H2.
  apply (relaxLoop_fuel_mono _ _ _ (fuel1 `max` fuel2)%nat) in H1; [|lia].
  apply (relaxLoop_fuel_mono _ _ _ (fuel1 `max` fuel2)%nat) in H2; [|lia].
  congruence.
Qed.

(** ** Setting the targets *)

Section Targets.
Context {P : Type} `{Point P}.

Lemma coords_cons (p : P) (rest : list P) :
  coords (p :: rest) = GetXY p :: coords rest.
Proof. reflexivity. Qed.

Lemma setTargets_cons pts (p : P) rest :
  setTargets pts (p :: rest) =
  pts' ← setPoint pts (GetXY p).1 (GetXY p).2 0; setTargets pts' rest.
Proof. simpl. by destruct (GetXY p). Qed.

Lemma setTargets_inv (Inv : list (list Rank) → Prop) pts (points : list P) pts' :
  (∀ q x y q', Inv q → setPoint q x y 0 = Some q' → Inv q') →
  Inv pts → setTargets pts points = Some pts' → Inv pts'.
Proof.
  intros Hstep. revert pts.
  induction points as [|p rest IH]; intros pts Hpts.
  - by intros [= <-].
  - rewrite setTargets_cons.
    destruct (setPoint pts _ _ 0) as [q|] eqn:Hset; simpl; [|done].
    apply IH. by eapply Hstep.
Qed.

Lemma setTargets_Shape m pts (points : list P) pts' :
  Shape m pts → setTargets pts points = Some pts' → Shape m pts'.
Proof. apply setTargets_inv. intros q x y q' Hq. by apply setPoint_Shape. Qed.

Lemma setTargets_Forall (Q : Rank → Prop) pts (points : list P) pts' :
  Q 0 → Forall (Forall Q) pts → setTargets pts points = Some pts' →
  Forall (Forall Q) pts'.
Proof.
  intros HQ. apply (setTargets_inv (Forall (Forall Q))).
  intros q x y q' Hq. by apply setPoint_Forall.
Qed.

Lemma setTargets_zero pts (points : list P) pts' c :
  setTargets pts points = Some pts' → c ∈ coords points →
  getPoint pts' c.1 c.2 = Some 0.
Proof.
  revert pts. induction points as [|p rest IH]; intros pts.
  - intros _ Hc. by apply elem_of_nil in Hc.
  - intros Hrest Hc. rewrite setTargets_cons in Hrest.
    destruct (setPoint pts _ _ 0) as [q|] eqn:Hset; simpl in Hrest; [|done].
    rewrite coords_cons in Hc.
    destruct (decide (c ∈ coords rest)) as [Hin|Hnin]; [by eapply IH|].
    apply elem_of_cons in Hc as [->|Hc]; [|done].
    apply (setTargets_inv (λ q, getPoint q (GetXY p).1 (GetXY p).2 = Some 0)
             _ _ _ ) in Hrest; [done| |by eapply getPoint_setPoint_eq].
    intros q0 x y q' Hq0 Hset'.
    rewrite (getPoint_setPoint _ _ _ _ _ _ _ Hset'). by case_decide.
Qed.

Lemma setTargets_other pts (points : list P) pts' x y :
  setTargets pts points = Some pts' → (x, y) ∉ coords points →
  getPoint pts' x y = getPoint pts x y.
Proof.
  revert pts. induction points as [|p rest IH]; intros pts.
  - by intros [= <-].
  - intros Hrest Hc. rewrite setTargets_cons in Hrest.
    destruct (setPoint pts _ _ 0) as [q|] eqn:Hset; simpl in Hrest; [|done].
    rewrite coords_cons in Hc.
    apply not_elem_of_cons in Hc as [Hne Hc].
    rewrite (IH _ Hrest Hc). eapply getPoint_setPoint_ne; [done|].
    by destruct (GetXY p).
Qed.

Lemma setTargets_total m pts (points : list P) :
  Shape m pts → TargetsInBounds m points → is_Some (setTargets pts points).
Proof.
  intros Hshape Hall. revert pts Hshape.
  induction Hall as [|p rest Hp _ IH]; intros pts Hshape; [by eexists|].
  rewrite setTargets_cons.
  apply (Shape_getPoint _ _ _ _ Hshape) in Hp.
  apply (setPoint_is_Some _ _ _ 0) in Hp as [q Hq].
  rewrite Hq. simpl. apply IH. by eapply setPoint_Shape.
Qed.

(** A target outside the grid makes the write panic. *)
Lemma setTargets_out_of_bounds m pts (points : list P) :
  Shape m pts → ¬ TargetsInBounds m points → setTargets pts points = None.
Proof.
  intros Hshape Hnot. revert pts Hshape.
  induction points as [|p rest IH]; intros pts Hshape.
  - destruct Hnot. constructor.
  - rewrite setTargets_cons.
    destruct (setPoint pts _ _ 0) as [q|] eqn:Hset; simpl; [|done].
    apply IH; [|by eapply setPoint_Shape].
    intros Hrest. apply Hnot. constructor; [|done].
    apply (Shape_getPoint _ _ _ _ Hshape), (setPoint_is_Some _ _ _ 0). eauto.
Qed.

(** Targets that already hold 0 are rewritten with what they hold. *)
Lemma setTargets_same pts (points : list P) :
  (∀ c, c ∈ coords points → getPoint pts c.1 c.2 = Some 0) →
  setTargets pts points = Some pts.
Proof.
  induction points as [|p rest IH]; intros Hall; [done|].
  rewrite setTargets_cons. rewrite setPoint_same.
  - simpl. apply IH. intros c Hc. apply Hall.
    rewrite coords_cons. apply elem_of_cons. by right.
  - apply (Hall (GetXY p)). rewrite coords_cons. apply elem_of_cons. by left.
Qed.

(** ** [Calc] and [Recalc] as a whole *)

Lemma Calc_Done fuel d (points : list P) d' :
  Calc fuel d points = Done d' ↔
  ∃ pts pts', setTargets (Points d) points = Some pts ∧
    relaxLoop fuel (M d) (NeigbourFunc d) pts = Done pts' ∧
    d' = mkDijkstraMap pts' (M d) (NeigbourFunc d).
Proof.
  unfold Calc. destruct (setTargets (Points d) points) as [pts|]; simpl.
  - destruct (relaxLoop fuel _ _ pts) as [pts'| |] eqn:Hloop.
    + split; [intros [= <-]; eauto|].
      intros (? & ? & [= <-] & Hl & ->). rewrite Hloop in Hl. by injection Hl as ->.
    + split; [done|]. intros (? & ? & [= <-] & Hl & _). congruence.
    + split; [done|]. intros (? & ? & [= <-] & Hl & _). congruence.
  - split; [done|]. by intros (? & ? & ? & _).
Qed.

Lemma CalcReturns_functional d (points : list P) d1 d2 :
  CalcReturns d points d1 → CalcReturns d points d2 → d1 = d2.
Proof.
  intros [f1 H1] [f2 H2].
  apply Calc_Done in H1 as (p1 & q1 & Hs1 & Hl1 & ->).
  apply Calc_Done in H2 as (p2 & q2 & Hs2 & Hl2 & ->).
  simplify_eq. by rewrite (relaxLoop_functional _ _ _ _ _ _ _ Hl1 Hl2).
Qed.

Lemma Calc_fields fuel d (points : list P) d' :
  Calc fuel d points = Done d' → M d' = M d ∧ NeigbourFunc d' = NeigbourFunc d.
Proof. intros (? & ? & _ & _ & ->)%Calc_Done. done. Qed.

(** Whatever holds of the grid [Calc] starts on, survives the target
    writes and every relaxation test, holds of the grid it leaves. *)
Lemma Calc_inv (Inv : list (list Rank) → Prop) fuel d (points : list P) d' :
  (∀ q x y q', Inv q → setPoint q x y 0 = Some q' → Inv q') →
  (∀ x y pts mut s', Inv pts →
     relax (M d) (NeigbourFunc d) x y (pts, mut) = Some s' → Inv s'.1) →
  Inv (Points d) → Calc fuel d points = Done d' → Inv (Points d').
Proof.
  intros Hset Hrelax Hd (pts & pts' & Hs & Hl & ->)%Calc_Done. simpl.
  eapply relaxLoop_inv; [done| |done]. by eapply setTargets_inv.
Qed.

Lemma Calc_WellFormed fuel d (points : list P) d' :
  WellFormed d → Calc fuel d points = Done d' → WellFormed d'.
Proof.
  intros [Hshape Hranks] Hcalc. pose proof (Calc_fields _ _ _ _ Hcalc) as [HM _].
  split.
  - rewrite HM. revert Hcalc. apply (Calc_inv (Shape (M d))); [| |done].
    + intros q x y q' Hq. by apply setPoint_Shape.
    + intros ? ? ? ? ?. apply relax_Shape.
  - revert Hcalc. apply (Calc_inv RanksOK); [| |done].
    + intros q x y q' Hq. apply setPoint_Forall; [done|]. unfold MaxUint16. lia.
    + intros ? ? ? ? ?. apply relax_RanksOK.
Qed.

Lemma Calc_terminates_from d (points : list P) :
  NeighbourFnOK (M d) (NeigbourFunc d) → WellFormed d →
  TargetsInBounds (M d) points →
  ∃ pts, setTargets (Points d) points = Some pts ∧
    ∃ d', Calc (S (Z.to_nat (total pts))) d points = Done d'.
Proof.
  intros HnfOK [Hshape Hranks] Hin.
  destruct (setTargets_total _ _ _ Hshape Hin) as [pts Hpts]. exists pts. split; [done|].
  destruct (relaxLoop_terminates (M d) (NeigbourFunc d) HnfOK
              (S (Z.to_nat (total pts))) pts) as [pts' Hloop].
  - by eapply setTargets_Shape.
  - eapply (setTargets_Forall (λ r, 0 ≤ r ≤ MaxUint16)); [|done..]. unfold MaxUint16. lia.
  - lia.
  - eexists. apply Calc_Done. eauto.
Qed.
End Targets.

(** ** The blank map *)

Lemma BlankDMap_Some m nf d0 :
  BlankDMap m nf = Some d0 ↔
  0 ≤ SizeX m ∧ (0 < SizeX m → 0 ≤ SizeY m) ∧
  d0 = mkDijkstraMap
         (replicate (Z.to_nat (SizeX m)) (replicate (Z.to_nat (SizeY m)) RankMax)) m nf.
Proof.
  unfold BlankDMap. repeat case_decide.
  - split; [done | lia].
  - split; [done | lia].
  - split; [intros [= <-] | intros (_ & _ & ->)]; [|done]. split_and!; [lia..|done].
Qed.

Lemma BlankDMap_total m nf :
  0 ≤ SizeX m → 0 ≤ SizeY m → is_Some (BlankDMap m nf).
Proof. intros Hx Hy. eexists. apply BlankDMap_Some. split_and!; [lia..|done]. Qed.

Lemma BlankDMap_fields m nf d0 :
  BlankDMap m nf = Some d0 → M d0 = m ∧ NeigbourFunc d0 = nf.
Proof. intros (_ & _ & ->)%BlankDMap_Some. done. Qed.

Lemma BlankDMap_all_RankMax m nf d0 :
  BlankDMap m nf = Some d0 → Forall (Forall (λ r, r = RankMax)) (Points d0).
Proof.
  intros (_ & _ & ->)%BlankDMap_Some. simpl.
  apply Forall_replicate, Forall_replicate. done.
Qed.

Lemma BlankDMap_Shape m nf d0 :
  BlankDMap m nf = Some d0 → Shape m (Points d0).
Proof.
  intros (Hx & Hy & ->)%BlankDMap_Some. simpl. split.
  - rewrite length_replicate. lia.
  - destruct (decide (SizeX m = 0)) as [H0|H0].
    + rewrite H0. simpl. constructor.
    + apply Forall_replicate. rewrite length_replicate. lia.
Qed.

Lemma BlankDMap_WellFormed m nf d0 :
  BlankDMap m nf = Some d0 → WellFormed d0.
Proof.
  intros Hblank. pose proof (BlankDMap_fields _ _ _ Hblank) as [HM _].
  split; [rewrite HM; by eapply BlankDMap_Shape|].
  eapply Forall_impl; [by eapply BlankDMap_all_RankMax|].
  intros row Hrow. eapply Forall_impl; [done|].
  intros r ->. unfold RankMax, MaxUint16. lia.
Qed.

Lemma BlankDMap_Bounded m nf d0 :
  BlankDMap m nf = Some d0 → Bounded (Points d0).
Proof.
  intros Hblank. eapply Forall_impl; [by eapply BlankDMap_all_RankMax|].
  intros row Hrow. eapply Forall_impl; [done|]. by intros r ->.
Qed.

(** ** Ranks against hop counts *)

Lemma Hops_nonneg m offs ts n c : Hops m offs ts n c → 0 ≤ n.
Proof. induction 1; lia. Qed.

(** *** The hop counts of the scenarios *)

Lemma Hops_inv m offs ts k c :
  Hops m offs ts k c →
  (k = 0 ∧ c ∈ ts) ∨
  (∃ o, InBounds m c.1 c.2 ∧ IsPassable m c.1 c.2 = true ∧ o ∈ offs ∧
        Hops m offs ts (k - 1) (c.1 + o.1, c.2 + o.2)).
Proof.
  destruct 1 as [c Hc|n c o Hin Hpass Ho Hhops]; [by left|].
  right. exists o. replace (n + 1 - 1) with n by lia. done.
Qed.

(** The corner of the open 3 by 3 grid is two 4-neighbour hops from the
    centre. *)
Example corner_is_two_hops_away :
  MinHops (rectMap 3 3 (λ _ _, true)) manhattanOffsets [(1, 1)] 2 (0, 0).
Proof.
  split.
  - apply (Hops_step _ _ _ 1 (0, 0) (1, 0)); [by unfold InBounds; simpl; lia|done| |].
    { unfold manhattanOffsets. apply elem_of_cons. by left. }
    apply (Hops_step _ _ _ 0 (1, 0) (0, 1)); [by unfold InBounds; simpl; lia|done| |].
    { unfold manhattanOffsets. do 3 (apply elem_of_cons; right).
      apply elem_of_cons. by left. }
    constructor. apply list_elem_of_singleton. done.
  - intros k Hk. pose proof (Hops_nonneg _ _ _ _ _ Hk) as Hk0.
    destruct (decide (2 ≤ k)) as [|Hsmall]; [done|]. exfalso.
    apply Hops_inv in Hk as [[_ Hc]|(o & _ & _ & Ho & Hk)].
    { by apply list_elem_of_singleton in Hc. }
    apply Hops_inv in Hk as [[_ Hc]|(o' & _ & _ & _ & Hk)].
    + apply list_elem_of_singleton in Hc. unfold manhattanOffsets in Ho.
      repeat (apply elem_of_cons in Ho as [->|Ho]; [by simplify_eq/=|]).
      by apply elem_of_nil in Ho.
    + apply Hops_nonneg in Hk. lia.
Qed.

(** Behind the impassable middle cell of the 1 by 3 grid no target can be
    reached. *)
Example blocked_cell_is_unreachable :
  Unreachable (rectMap 1 3 (λ _ y, negb (y =? 1))) manhattanOffsets [(0, 0)] (0, 2).
Proof.
  intros k Hk.
  apply Hops_inv in Hk as [[_ Hc]|(o & _ & _ & Ho & Hk)].
  { by apply list_elem_of_singleton in Hc. }
  apply Hops_inv in Hk as [[_ Hc]|(o' & Hin & Hpass & _ & _)].
  - apply list_elem_of_singleton in Hc. unfold manhattanOffsets in Ho.
    repeat (apply elem_of_cons in Ho as [->|Ho]; [by simplify_eq/=|]).
    by apply elem_of_nil in Ho.
  - unfold manhattanOffsets in Ho. unfold InBounds in Hin. simpl in Hin, Hpass.
    repeat (apply elem_of_cons in Ho as [->|Ho]; [simpl in *; try lia; done|]).
    by apply elem_of_nil in Ho.
Qed.

Section Correctness.
Context (m : Map) (nf : NeighbourFn) (offs : list (Z * Z)) (ts : list (Z * Z)).
Hypothesis HmapOK : MapOK m.
Hypothesis Htopology : IsTopology offs nf.

(** What [LowestNeighbour] returns, for a topology on a bounded grid: a
    sample of some neighbour, no greater than any other sample. *)
Lemma LowestNeighbour_topology pts x y wp :
  RanksOK pts → Bounded pts →
  LowestNeighbour (mkDijkstraMap pts m nf) x y = Some wp →
  0 ≤ Val wp ≤ RankMax ∧
  (∃ o, o ∈ offs ∧ GetValPoint pts m (x + o.1) (y + o.2) = Some wp) ∧
  (∀ o wp', o ∈ offs → GetValPoint pts m (x + o.1) (y + o.2) = Some wp' →
            Val wp ≤ Val wp').
Proof.
  intros Hranks Hbound Hln. destruct Htopology as [_ Hnf].
  apply LowestNeighbour_Some in Hln as (vals & v0 & Hvals & Hv0 & Hwp & Hcase).
  simpl in Hvals. rewrite Hnf in Hvals.
  apply offsetNeighbours_Some in Hvals as (Hfwd & Hbwd & _).
  assert (∀ v, v ∈ vals → 0 ≤ Val v ≤ RankMax) as Hrange.
  { intros v (o & _ & Hv)%Hbwd.
    apply GetValPoint_Some in Hv as [[_ ->]|(_ & r & Hr & ->)]; simpl.
    - unfold RankMax, MaxUint16. lia.
    - pose proof (getPoint_Forall _ _ _ _ _ Hranks Hr) as H1.
      pose proof (getPoint_Forall _ _ _ _ _ Hbound Hr) as H2. simpl in *. lia. }
  split; [by apply Hrange|]. split; [by apply Hbwd|].
  intros o wp' Ho Hwp'. destruct (Hfwd o Ho) as (wp'' & Hin & Hget).
  assert (wp'' = wp') as -> by congruence.
  destruct Hcase as [[Hall _]|[_ Hmin]]; [|by apply Hmin].
  specialize (Hall _ Hin). specialize (Hrange _ Hwp). lia.
Qed.

(** Soundness is kept by every relaxation test. *)
Lemma relax_Sound x y pts mut s' :
  Shape m pts → RanksOK pts → Bounded pts → Sound m offs ts pts →
  relax m nf x y (pts, mut) = Some s' → Sound m offs ts s'.1.
Proof.
  intros Hshape Hranks Hbound Hsound Hrel. destruct s' as [p' mu'].
  apply relax_cases in Hrel
    as [[-> _]|(Hpass & _ & wp & cur & Hln & Hcur & Hlt & Hset)]; [done|].
  simpl. intros x' y' r Hr Hsmall.
  rewrite (getPoint_setPoint _ _ _ _ _ _ _ Hset) in Hr.
  case_decide as Heq; [|by apply Hsound].
  injection Heq as -> ->. injection Hr as <-.
  apply LowestNeighbour_topology in Hln as (Hrange & (o & Ho & Hget) & _); [|done..].
  pose proof (getPoint_Forall _ _ _ _ _ Hbound Hcur) as Hc. simpl in Hc.
  assert (Val wp < MaxUint16) as Hlt16 by (unfold RankMax in *; lia).
  rewrite rank_succ_small in * by lia.
  apply (Hops_step m offs ts (Val wp) (x, y) o); simpl; [|done..|].
  - apply (Shape_getPoint _ _ _ _ Hshape). eauto.
  - apply GetValPoint_Some in Hget as [[_ ->]|(_ & v & Hv & ->)]; simpl in *; [lia|].
    apply Hsound; [done|lia].
Qed.

(** On a grid where every cell is settled and the targets hold 0, no
    rank exceeds the length of a walk to a target. *)
Lemma settled_rank_le_hops pts n c :
  Shape m pts → RanksOK pts → Bounded pts →
  (∀ x y, InBounds m x y → Settled m nf pts x y) →
  (∀ t, t ∈ ts → getPoint pts t.1 t.2 = Some 0) →
  Hops m offs ts n c →
  ∃ r, getPoint pts c.1 c.2 = Some r ∧ r ≤ n.
Proof.
  intros Hshape Hranks Hbound Hsettled Hzero.
  induction 1 as [c Hc|n c o Hin Hpass Ho Hhops (r' & Hr' & Hle)].
  - exists 0. split; [by apply Hzero | lia].
  - simpl in Hr'.
    destruct (Settled_passable _ _ _ _ _ (Hsettled _ _ Hin) Hpass)
      as (wp & cur & Hln & Hcur & Hcurle).
    exists cur. split; [done|].
    apply LowestNeighbour_topology in Hln as (Hrange & _ & Hmin); [|done..].
    pose proof (getPoint_Forall _ _ _ _ _ Hbound Hcur) as Hc. simpl in Hc.
    assert (GetValPoint pts m (c.1 + o.1) (c.2 + o.2)
            = Some (mkWeightedPoint (c.1 + o.1) (c.2 + o.2) r')) as Hget.
    { apply GetValPoint_Some. right. split; [|eauto].
      destruct (OOB m (c.1 + o.1) (c.2 + o.2)) eqn:Hoob; [|done].
      apply HmapOK in Hoob. destruct Hoob.
      apply (Shape_getPoint _ _ _ _ Hshape). eauto. }
    specialize (Hmin _ _ Ho Hget). simpl in Hmin.
    destruct (decide (Val wp < MaxUint16)) as [Hsm|Hbig].
    + rewrite rank_succ_small in Hcurle by lia. lia.
    + unfold RankMax in *. lia.
Qed.
End Correctness.

Lemma rectMap_OK w h pass : MapOK (rectMap w h pass).
Proof.
  intros x y. unfold InBounds. simpl.
  rewrite negb_true_iff, !andb_false_iff, Z.leb_gt, !Z.ltb_ge, Z.leb_gt. lia.
Qed.

(** ** The field [BlankDMap] and [Calc] leave *)

Section BlankCalc.
Context {P : Type} `{Point P}.
Context (m : Map) (nf : NeighbourFn) (offs : list (Z * Z)).
Hypothesis HmapOK : MapOK m.
Hypothesis Htopology : IsTopology offs nf.

Lemma blank_targets_Sound (points : list P) d0 pts :
  BlankDMap m nf = Some d0 → setTargets (Points d0) points = Some pts →
  Sound m offs (coords points) pts.
Proof.
  intros Hblank Hset x y r Hr Hsmall.
  destruct (decide ((x, y) ∈ coords points)) as [Hin|Hnin].
  - pose proof (setTargets_zero _ _ _ _ Hset Hin) as Hz. simpl in Hz.
    assert (r = 0) as -> by congruence. by constructor.
  - rewrite (setTargets_other _ _ _ _ _ Hset Hnin) in Hr.
    pose proof (getPoint_Forall _ _ _ _ _ (BlankDMap_all_RankMax _ _ _ Hblank) Hr) as Hmax.
    simpl in Hmax. lia.
Qed.

Lemma blank_Calc_field (points : list P) d0 d :
  BlankDMap m nf = Some d0 → CalcReturns d0 points d →
  Shape m (Points d) ∧ RanksOK (Points d) ∧ Bounded (Points d) ∧
  Sound m offs (coords points) (Points d) ∧
  (∀ x y, InBounds m x y → Settled m nf (Points d) x y) ∧
  (∀ t, t ∈ coords points → getPoint (Points d) t.1 t.2 = Some 0).
Proof.
  intros Hblank [fuel Hcalc].
  pose proof (BlankDMap_fields _ _ _ Hblank) as [HM Hnf].
  pose proof (BlankDMap_WellFormed _ _ _ Hblank) as [Hshape0 Hranks0].
  pose proof (BlankDMap_Bounded _ _ _ Hblank) as Hbound0.
  apply Calc_Done in Hcalc as (pts & pts' & Hset & Hloop & ->). simpl.
  rewrite HM, Hnf in *.
  assert (Shape m pts) as Hshape by (by eapply setTargets_Shape).
  set (Inv := λ q, Shape m q ∧ RanksOK q ∧ Bounded q ∧ Sound m offs (coords points) q
                   ∧ ∀ t, t ∈ coords points → getPoint q t.1 t.2 = Some 0).
  assert (Inv pts') as (? & ? & ? & ? & ?).
  { eapply (relaxLoop_inv m nf Inv); [| |done].
    - intros x y q mut s' (? & ? & ? & ? & Hz) Hrel. split_and!.
      + by eapply relax_Shape.
      + by eapply relax_RanksOK.
      + by eapply relax_Bounded.
      + by eapply relax_Sound.
      + intros t Ht. eapply relax_zero; [by apply Hz | done].
    - split_and!; [done| | | |].
      + eapply (setTargets_Forall (λ r, 0 ≤ r ≤ MaxUint16)); [|done..].
        unfold MaxUint16. lia.
      + eapply (setTargets_Forall (λ r, r ≤ RankMax)); [|done..].
        unfold RankMax, MaxUint16. lia.
      + by eapply blank_targets_Sound.
      + intros t Ht. by eapply setTargets_zero. }
  split_and!; [done..| |done].
  by eapply (proj2 (relaxLoop_Done_settled m nf fuel pts pts' Hshape Hloop)).
Qed.

(** The rank of a passable cell: the least hop count, capped at
    [RankMax]; and [RankMax] where no target can be reached. *)
Lemma blank_Calc_rank (points : list P) d0 d x y :
  BlankDMap m nf = Some d0 → CalcReturns d0 points d →
  InBounds m x y → IsPassable m x y = true →
  (∀ n, MinHops m offs (coords points) n (x, y) →
        getPoint (Points d) x y = Some (n `min` RankMax)) ∧
  (Unreachable m offs (coords points) (x, y) →
   getPoint (Points d) x y = Some RankMax).
Proof.
  intros Hblank Hcalc Hin Hpass.
  destruct (blank_Calc_field _ _ _ Hblank Hcalc)
    as (Hshape & Hranks & Hbound & Hsound & Hsettled & Hzero).
  pose proof Hin as [r Hr]%(Shape_getPoint _ _ _ _ Hshape).
  pose proof (getPoint_Forall _ _ _ _ _ Hbound Hr) as Hle. simpl in Hle.
  rewrite Hr. split.
  - intros n [Hhops Hleast]. f_equal.
    destruct (settled_rank_le_hops m nf offs (coords points) HmapOK Htopology
                (Points d) n (x, y)) as (r' & Hr' & Hub); [done..|].
    simpl in Hr'. assert (r' = r) as -> by congruence.
    destruct (decide (r < RankMax)) as [Hsmall|Hbig]; [|lia].
    specialize (Hleast _ (Hsound _ _ _ Hr Hsmall)). lia.
  - intros Hun. f_equal.
    destruct (decide (r < RankMax)) as [Hsmall|Hbig]; [|lia].
    destruct (Hun _ (Hsound _ _ _ Hr Hsmall)).
Qed.

Lemma blank_Calc_returns (points : list P) d0 :
  BlankDMap m nf = Some d0 → TargetsInBounds m points →
  ∃ d, CalcReturns d0 points d.
Proof.
  intros Hblank Hin.
  pose proof (BlankDMap_fields _ _ _ Hblank) as [HM Hnf].
  destruct (Calc_terminates_from d0 points) as (pts & _ & d & Hd).
  - rewrite HM, Hnf. by eapply topology_NeighbourFnOK.
  - by eapply BlankDMap_WellFormed.
  - by rewrite HM.
  - exists d. by eexists.
Qed.
End BlankCalc.

(** C1, as amended.  For every grid whose [OOB] agrees with its
    dimensions, every passability pattern, every offset topology and every
    list of in-bounds targets, [BlankDMap] followed by [Calc] returns, and
    in the field it leaves each in-bounds passable cell holds the least
    number of unit hops to a target along passable cells, capped at
    [RankMax]; a passable cell from which no target can be reached holds
    [RankMax]. *)
Theorem Calc_ranks_are_capped_hop_counts
  {P : Type} `{Point P} (m : Map) (nf : NeighbourFn) (offs : list (Z * Z))
  (points : list P) (d0 : DijkstraMap) :
  MapOK m → IsTopology offs nf → TargetsInBounds m points →
  BlankDMap m nf = Some d0 →
  ∃ d, CalcReturns d0 points d ∧
    ∀ x y, InBounds m x y → IsPassable m x y = true →
      (∀ n, MinHops m offs (coords points) n (x, y) →
            getPoint (Points d) x y = Some (n `min` RankMax)) ∧
      (Unreachable m offs (coords points) (x, y) →
       getPoint (Points d) x y = Some RankMax).
Proof.
  intros Hok Htopo Hin Hblank.
  destruct (blank_Calc_returns m nf offs Hok Htopo points d0 Hblank Hin) as [d Hd].
  exists d. split; [done|]. intros x y. by eapply blank_Calc_rank.
Qed.

(** *** The corridor longer than [RankMax] *)

Lemma corridor_walk k :
  0 ≤ k → k < 65527 → Hops corridor manhattanOffsets [(0, 0)] k (k, 0).
Proof.
  intros Hk. revert k Hk. apply (natlike_ind (λ k, k < 65527 → Hops _ _ _ k (k, 0))).
  - intros _. constructor. apply list_elem_of_singleton. done.
  - intros k Hk IH Hlt. unfold Z.succ.
    apply (Hops_step corridor manhattanOffsets _ k (k + 1, 0) (-1, 0)).
    + unfold InBounds. simpl. lia.
    + done.
    + unfold manhattanOffsets. apply elem_of_cons. right. apply elem_of_cons. by left.
    + simpl. replace (k + 1 + -1) with k by lia. apply IH. lia.
Qed.

Lemma corridor_hops_ge k c :
  Hops corridor manhattanOffsets [(0, 0)] k c → c.1 ≤ k.
Proof.
  induction 1 as [c Hc|n c o _ _ Ho _ IH].
  - apply list_elem_of_singleton in Hc as ->. simpl. lia.
  - simpl in IH. unfold manhattanOffsets in Ho.
    repeat (apply elem_of_cons in Ho as [->|Ho]; [simpl in IH; lia|]).
    by apply elem_of_nil in Ho.
Qed.

(** C1 as stated fails on a long corridor: the far end of an open
    65527-cell corridor is 65526 hops from the target at the other end,
    and holds [RankMax = 65525]. *)
Lemma corridor_far_end_holds_RankMax :
  ∃ d0 d, BlankDMap corridor ManhattanNeighbours = Some d0 ∧
    CalcReturns d0 [target 0 0] d ∧
    InBounds corridor 65526 0 ∧ IsPassable corridor 65526 0 = true ∧
    MinHops corridor manhattanOffsets (coords [target 0 0]) 65526 (65526, 0) ∧
    getPoint (Points d) 65526 0 = Some 65525 ∧
    getPoint (Points d) 65526 0 ≠ Some 65526.
Proof.
  destruct (BlankDMap_total corridor ManhattanNeighbours) as [d0 Hblank]; [done..|].
  assert (TargetsInBounds corridor [target 0 0]) as Hin.
  { constructor; [|constructor]. unfold InBounds. simpl. lia. }
  destruct (blank_Calc_returns corridor ManhattanNeighbours manhattanOffsets
              (rectMap_OK _ _ _) ManhattanNeighbours_topology _ _ Hblank Hin) as [d Hd].
  assert (InBounds corridor 65526 0) as Hcell by (unfold InBounds; simpl; lia).
  assert (MinHops corridor manhattanOffsets (coords [target 0 0]) 65526 (65526, 0)) as Hmin.
  { split; [by apply corridor_walk|]. intros k Hk%corridor_hops_ge. done. }
  destruct (blank_Calc_rank corridor ManhattanNeighbours manhattanOffsets
              (rectMap_OK _ _ _) ManhattanNeighbours_topology
              [target 0 0] d0 d 65526 0 Hblank Hd Hcell eq_refl) as [Hrank _].
  specialize (Hrank _ Hmin).
  exists d0, d. split_and!; [done..| |].
  - rewrite Hrank. done.
  - rewrite Hrank. done.
Qed.

(** The theorem at the 3 by 3 open grid with the centre as target. *)
Lemma Calc_ranks_are_capped_hop_counts_witness :
  ∃ d, CalcReturns
         (mkDijkstraMap (replicate 3 (replicate 3 RankMax))
            (rectMap 3 3 (λ _ _, true)) ManhattanNeighbours)
         [target 1 1] d ∧
    ∀ x y, InBounds (rectMap 3 3 (λ _ _, true)) x y →
      IsPassable (rectMap 3 3 (λ _ _, true)) x y = true →
      (∀ n, MinHops (rectMap 3 3 (λ _ _, true)) manhattanOffsets
              (coords [target 1 1]) n (x, y) →
            getPoint (Points d) x y = Some (n `min` RankMax)) ∧
      (Unreachable (rectMap 3 3 (λ _ _, true)) manhattanOffsets
         (coords [target 1 1]) (x, y) →
       getPoint (Points d) x y = Some RankMax).
Proof.
  apply (Calc_ranks_are_capped_hop_counts
           (rectMap 3 3 (λ _ _, true)) ManhattanNeighbours manhattanOffsets).
  - apply rectMap_OK.
  - apply ManhattanNeighbours_topology.
  - repeat constructor; simpl; lia.
  - reflexivity.
Defined.

(** C2.  From any well-formed map and in-bounds targets, [Calc] returns:
    the loop reaches a pass with no mutation, within as many passes as the
    sum of the ranks after the targets are set, plus one (every mutating
    pass lowers that sum); and no rank has gone up or below 0. *)
Theorem Calc_terminates
  {P : Type} `{Point P} (d : DijkstraMap) (points : list P) :
  NeighbourFnOK (M d) (NeigbourFunc d) → WellFormed d →
  TargetsInBounds (M d) points →
  ∃ pts d', setTargets (Points d) points = Some pts ∧
    Calc (S (Z.to_nat (total pts))) d points = Done d' ∧
    sweep (M d') (NeigbourFunc d') (Points d') = Some (Points d', false) ∧
    ∀ x y r, getPoint pts x y = Some r →
      ∃ r', getPoint (Points d') x y = Some r' ∧ 0 ≤ r' ≤ r.
Proof.
  intros HnfOK Hwf Hin.
  destruct (Calc_terminates_from d points HnfOK Hwf Hin) as (pts & Hset & d' & Hd').
  exists pts, d'. split_and!; [done..| |].
  - pose proof Hd' as (pts0 & pts' & Hset' & Hloop & ->)%Calc_Done. simpl.
    eapply relaxLoop_Done_settled; [|done].
    eapply setTargets_Shape; [|done]. apply Hwf.
  - pose proof Hd' as (pts0 & pts' & Hset' & Hloop & ->)%Calc_Done. simpl.
    assert (pts0 = pts) as -> by congruence.
    intros x y r. eapply relaxLoop_lowers; [|done].
    eapply (setTargets_Forall (λ r, 0 ≤ r ≤ MaxUint16)); [|apply Hwf|done].
    unfold MaxUint16. lia.
Qed.

Lemma Calc_terminates_witness :
  ∃ pts d', setTargets [[7; 3]; [65535; 0]] [target 0 0] = Some pts ∧
    Calc (S (Z.to_nat (total pts)))
      (mkDijkstraMap [[7; 3]; [65535; 0]] (rectMap 2 2 (λ _ _, true)) DiagonalNeighbours)
      [target 0 0] = Done d' ∧
    sweep (M d') (NeigbourFunc d') (Points d') = Some (Points d', false) ∧
    ∀ x y r, getPoint pts x y = Some r →
      ∃ r', getPoint (Points d') x y = Some r' ∧ 0 ≤ r' ≤ r.
Proof.
  apply (Calc_terminates
           (mkDijkstraMap [[7; 3]; [65535; 0]] (rectMap 2 2 (λ _ _, true)) DiagonalNeighbours)
           [target 0 0]).
  - exact (topology_NeighbourFnOK _ _ _ (rectMap_OK _ _ _) DiagonalNeighbours_topology).
  - split; [split; [reflexivity | repeat constructor]
           | repeat constructor; unfold MaxUint16; lia].
  - repeat constructor; simpl; lia.
Defined.

(** ** Targets *)

Lemma Calc_targets_zero {P : Type} `{Point P} fuel d (points : list P) d' p :
  Calc fuel d points = Done d' → p ∈ points →
  getPoint (Points d') (GetXY p).1 (GetXY p).2 = Some 0.
Proof.
  intros (pts & pts' & Hset & Hloop & ->)%Calc_Done Hp. simpl.
  eapply (relaxLoop_inv _ _ (λ q, getPoint q (GetXY p).1 (GetXY p).2 = Some 0)); [| |done].
  - intros x y q mut s' Hq. by apply relax_zero.
  - apply (setTargets_zero _ _ _ (GetXY p) Hset). unfold coords.
    by apply list_elem_of_fmap_2.
Qed.

(** The grid [Recalc] hands to [Calc]. *)
Lemma reset_is_blank m pts :
  Shape m pts →
  (λ row : list Rank, (λ _ : Rank, RankMax) <$> row) <$> pts
  = replicate (Z.to_nat (SizeX m)) (replicate (Z.to_nat (SizeY m)) RankMax).
Proof.
  intros [Hlen Hrows]. replace (Z.to_nat (SizeX m)) with (length pts) by lia.
  clear Hlen. induction Hrows as [|row pts Hrow _ IH]; [done|].
  rewrite fmap_cons. simpl. f_equal; [|done].
  replace (Z.to_nat (SizeY m)) with (length row) by lia.
  clear. induction row as [|r row IH]; [done|]. rewrite fmap_cons. simpl. by f_equal.
Qed.

Lemma Shape_BlankDMap m nf pts :
  Shape m pts →
  BlankDMap m nf =
  Some (mkDijkstraMap (replicate (Z.to_nat (SizeX m)) (replicate (Z.to_nat (SizeY m)) RankMax))
          m nf).
Proof.
  intros [Hlen Hrows]. apply BlankDMap_Some. split_and!; [lia| |done].
  intros Hpos. destruct pts as [|row pts]; [simpl in Hlen; lia|].
  apply Forall_cons in Hrows as [Hrow _]. lia.
Qed.

Lemma Recalc_blank_Calc {P : Type} `{Point P} fuel d (points : list P) :
  Shape (M d) (Points d) →
  ∃ d0, BlankDMap (M d) (NeigbourFunc d) = Some d0 ∧
        Recalc fuel d points = Calc fuel d0 points.
Proof.
  intros Hshape. eexists. split; [by eapply Shape_BlankDMap|].
  unfold Recalc. by rewrite (reset_is_blank _ _ Hshape).
Qed.

(** C3.  After [Calc], and after [Recalc], every target coordinate holds
    rank 0, whether the cell is passable or not. *)
Theorem targets_hold_zero
  {P : Type} `{Point P} (d : DijkstraMap) (points : list P) :
  NeighbourFnOK (M d) (NeigbourFunc d) → WellFormed d →
  TargetsInBounds (M d) points →
  (∃ d', CalcReturns d points d' ∧
     ∀ p, p ∈ points → getPoint (Points d') (GetXY p).1 (GetXY p).2 = Some 0) ∧
  (∃ d', RecalcReturns d points d' ∧
     ∀ p, p ∈ points → getPoint (Points d') (GetXY p).1 (GetXY p).2 = Some 0).
Proof.
  intros HnfOK Hwf Hin. split.
  - destruct (Calc_terminates_from d points HnfOK Hwf Hin) as (pts & _ & d' & Hd').
    exists d'. split; [by eexists|]. intros p. by eapply Calc_targets_zero.
  - destruct (Recalc_blank_Calc 0 d points (proj1 Hwf)) as (d0 & Hblank & _).
    pose proof (BlankDMap_fields _ _ _ Hblank) as [HM Hnf].
    destruct (Calc_terminates_from d0 points) as (pts & _ & d' & Hd').
    { by rewrite HM, Hnf. } { by eapply BlankDMap_WellFormed. }
    { by rewrite HM. }
    exists d'. split.
    + exists (S (Z.to_nat (total pts))).
      destruct (Recalc_blank_Calc (S (Z.to_nat (total pts))) d points (proj1 Hwf))
        as (d0' & Hblank' & ->).
      by simplify_eq.
    + intros p. by eapply Calc_targets_zero.
Qed.

(** The theorem on a 1 by 3 grid whose middle cell is impassable and is
    the target. *)
Lemma targets_hold_zero_witness :
  let d := mkDijkstraMap [[4; 9; 65535]] (rectMap 1 3 (λ _ y, negb (y =? 1)))
             ManhattanNeighbours in
  (∃ d', CalcReturns d [target 0 1] d' ∧
     ∀ p, p ∈ [target 0 1] → getPoint (Points d') (GetXY p).1 (GetXY p).2 = Some 0) ∧
  (∃ d', RecalcReturns d [target 0 1] d' ∧
     ∀ p, p ∈ [target 0 1] → getPoint (Points d') (GetXY p).1 (GetXY p).2 = Some 0).
Proof.
  apply (targets_hold_zero
           (mkDijkstraMap [[4; 9; 65535]] (rectMap 1 3 (λ _ y, negb (y =? 1)))
              ManhattanNeighbours)
           [target 0 1]).
  - exact (topology_NeighbourFnOK _ _ _ (rectMap_OK _ _ _) ManhattanNeighbours_topology).
  - split; [split; [reflexivity | repeat constructor]
           | repeat constructor; unfold MaxUint16; lia].
  - repeat constructor; simpl; lia.
Defined.

(** C4.  On a map whose rank grid has the grid's dimensions, [Recalc]
    does what [BlankDMap] followed by [Calc] does: the fresh map exists;
    for every budget of passes both runs end the same way; the maps they
    leave are the same, cell for cell; and with in-bounds targets both do
    return. *)
Theorem Recalc_is_blank_then_Calc
  {P : Type} `{Point P} (d : DijkstraMap) (points : list P) :
  Shape (M d) (Points d) →
  ∃ d0, BlankDMap (M d) (NeigbourFunc d) = Some d0 ∧
    (∀ fuel, Recalc fuel d points = Calc fuel d0 points) ∧
    (∀ d', RecalcReturns d points d' ↔ CalcReturns d0 points d') ∧
    (NeighbourFnOK (M d) (NeigbourFunc d) → TargetsInBounds (M d) points →
     ∃ d', RecalcReturns d points d' ∧ CalcReturns d0 points d').
Proof.
  intros Hshape.
  destruct (Recalc_blank_Calc 0 d points Hshape) as (d0 & Hblank & _).
  assert (∀ fuel, Recalc fuel d points = Calc fuel d0 points) as Heq.
  { intros fuel. destruct (Recalc_blank_Calc fuel d points Hshape) as (d0' & Hblank' & ->).
    by simplify_eq. }
  assert (∀ d', RecalcReturns d points d' ↔ CalcReturns d0 points d') as Hiff.
  { intros d'. unfold RecalcReturns, CalcReturns.
    split; intros [fuel Hrun]; exists fuel; by rewrite ?Heq in *. }
  exists d0. split_and!; [done..|].
  intros HnfOK Hin. pose proof (BlankDMap_fields _ _ _ Hblank) as [HM Hnf].
  destruct (Calc_terminates_from d0 points) as (pts & _ & d' & Hd').
  { by rewrite HM, Hnf. } { by eapply BlankDMap_WellFormed. } { by rewrite HM. }
  exists d'. assert (CalcReturns d0 points d') as Hret by (by eexists).
  split; [by apply Hiff | done].
Qed.

Lemma Recalc_is_blank_then_Calc_witness :
  let d := mkDijkstraMap [[4; 0]; [65535; 7]] (rectMap 2 2 (λ x y, negb (x =? y)))
             ManhattanNeighbours in
  ∃ d0, BlankDMap (M d) (NeigbourFunc d) = Some d0 ∧
    (∀ fuel, Recalc fuel d [target 1 0] = Calc fuel d0 [target 1 0]) ∧
    (∀ d', RecalcReturns d [target 1 0] d' ↔ CalcReturns d0 [target 1 0] d') ∧
    (NeighbourFnOK (M d) (NeigbourFunc d) → TargetsInBounds (M d) [target 1 0] →
     ∃ d', RecalcReturns d [target 1 0] d' ∧ CalcReturns d0 [target 1 0] d').
Proof.
  apply (Recalc_is_blank_then_Calc
           (mkDijkstraMap [[4; 0]; [65535; 7]] (rectMap 2 2 (λ x y, negb (x =? y)))
              ManhattanNeighbours) [target 1 0]).
  split; [reflexivity | repeat constructor].
Defined.

Example Recalc_on_a_used_map :
  match Recalc 9 (mkDijkstraMap [[4; 0]; [65535; 7]]
                    (rectMap 2 2 (λ x y, negb (x =? y))) ManhattanNeighbours)
          [target 1 0] with
  | Done d' => Some (Points d')
  | _ => None
  end = Some [[RankMax; RankMax]; [0; RankMax]].
Proof. vm_compute. reflexivity. Qed.

(** C5.  Where the grid reports a coordinate out of bounds, [GetValPoint]
    returns that coordinate with rank [RankMax], whatever the rank grid
    holds. *)
Theorem GetValPoint_out_of_bounds (pts : list (list Rank)) (m : Map) (x y : Z) :
  OOB m x y = true →
  GetValPoint pts m x y = Some (mkWeightedPoint x y RankMax).
Proof. intros Hoob. unfold GetValPoint. by rewrite Hoob. Qed.

Lemma GetValPoint_out_of_bounds_witness :
  GetValPoint [[1; 2]] (rectMap 1 2 (λ _ _, true)) (-1) 5
  = Some (mkWeightedPoint (-1) 5 RankMax).
Proof.
  apply (GetValPoint_out_of_bounds [[1; 2]] (rectMap 1 2 (λ _ _, true)) (-1) 5).
  reflexivity.
Defined.

(** ** No targets *)

Lemma sweep_all_RankMax m nf offs pts :
  MapOK m → IsTopology offs nf → Shape m pts →
  Forall (Forall (λ r, r = RankMax)) pts →
  sweep m nf pts = Some (pts, false).
Proof.
  intros Hok Htopo Hshape Hall.
  destruct (sweep_total m nf (topology_NeighbourFnOK _ _ _ Hok Htopo) pts Hshape)
    as (s' & Hsw & _).
  rewrite Hsw. f_equal.
  apply sweep_rtc in Hsw.
  apply (RelaxStep_rtc_inv m nf (λ s, s = (pts, false))) in Hsw; [done| |done].
  intros x y s s1 -> Hrel. destruct s1 as [p1 mu1].
  apply relax_cases in Hrel
    as [[-> ->]|(_ & _ & wp & cur & Hln & Hcur & Hlt & _)]; [done|].
  assert (RanksOK pts) as Hranks.
  { eapply Forall_impl; [exact Hall|]. intros row Hrow. eapply Forall_impl; [exact Hrow|].
    intros r ->. unfold RankMax, MaxUint16. lia. }
  assert (Bounded pts) as Hbound.
  { eapply Forall_impl; [exact Hall|]. intros row Hrow. eapply Forall_impl; [exact Hrow|].
    by intros r ->. }
  apply (LowestNeighbour_topology m nf offs Htopo) in Hln
    as (_ & (o & _ & Hget) & _); [|done..].
  pose proof (getPoint_Forall _ _ _ _ _ Hall Hcur) as Hc. simpl in Hc. subst cur.
  apply GetValPoint_Some in Hget as [[_ ->]|(_ & v & Hv & ->)]; simpl in Hlt.
  - vm_compute in Hlt. done.
  - pose proof (getPoint_Forall _ _ _ _ _ Hall Hv) as Hv'. simpl in Hv'. subst v.
    vm_compute in Hlt. done.
Qed.

(** C6.  With no targets, [Calc] on a freshly blanked map, and [Recalc],
    return after a single pass that mutates nothing, and every cell of the
    grid holds [RankMax]. *)
Theorem Calc_without_targets
  {P : Type} `{Point P} (m : Map) (nf : NeighbourFn) (offs : list (Z * Z))
  (d0 : DijkstraMap) :
  MapOK m → IsTopology offs nf → BlankDMap m nf = Some d0 →
  Calc 1 d0 (@nil P) = Done d0 ∧
  Recalc 1 d0 (@nil P) = Done d0 ∧
  sweep m nf (Points d0) = Some (Points d0, false) ∧
  ∀ x y, InBounds m x y → getPoint (Points d0) x y = Some RankMax.
Proof.
  intros Hok Htopo Hblank.
  pose proof (BlankDMap_fields _ _ _ Hblank) as [HM Hnf].
  pose proof (BlankDMap_Shape _ _ _ Hblank) as Hshape.
  pose proof (BlankDMap_all_RankMax _ _ _ Hblank) as Hall.
  pose proof (sweep_all_RankMax m nf offs (Points d0) Hok Htopo Hshape Hall) as Hsw.
  assert (Calc 1 d0 (@nil P) = Done d0) as Hcalc.
  { unfold Calc. simpl. rewrite HM, Hnf, Hsw. by destruct d0; simplify_eq/=. }
  split_and!; [done| |done|].
  - destruct (Recalc_blank_Calc 1 d0 (@nil P)) as (d0' & Hblank' & ->).
    { by rewrite HM. }
    rewrite HM, Hnf in Hblank'. by simplify_eq.
  - intros x y [r Hr]%(Shape_getPoint _ _ _ _ Hshape).
    pose proof (getPoint_Forall _ _ _ _ _ Hall Hr) as Hmax. simpl in Hmax. by subst r.
Qed.

Lemma Calc_without_targets_witness :
  let m := rectMap 2 3 (λ _ _, true) in
  let d0 := mkDijkstraMap (replicate 2 (replicate 3 RankMax)) m DiagonalNeighbours in
  Calc 1 d0 (@nil WeightedPoint) = Done d0 ∧
  Recalc 1 d0 (@nil WeightedPoint) = Done d0 ∧
  sweep m DiagonalNeighbours (Points d0) = Some (Points d0, false) ∧
  ∀ x y, InBounds m x y → getPoint (Points d0) x y = Some RankMax.
Proof.
  apply (Calc_without_targets (P:=WeightedPoint)
           (rectMap 2 3 (λ _ _, true)) DiagonalNeighbours diagonalOffsets).
  - apply rectMap_OK.
  - apply DiagonalNeighbours_topology.
  - reflexivity.
Defined.

(** C7.  [Calc] is idempotent at its fixed point: on the map that
    [BlankDMap] followed by [Calc] leaves, a second [Calc] with the same
    targets returns after one pass and leaves that very map. *)
Theorem Calc_idempotent
  {P : Type} `{Point P} (m : Map) (nf : NeighbourFn) (offs : list (Z * Z))
  (points : list P) (d0 : DijkstraMap) :
  MapOK m → IsTopology offs nf → TargetsInBounds m points →
  BlankDMap m nf = Some d0 →
  ∃ d1, CalcReturns d0 points d1 ∧ Calc 1 d1 points = Done d1.
Proof.
  intros Hok Htopo Hin Hblank.
  destruct (blank_Calc_returns m nf offs Hok Htopo points d0 Hblank Hin) as [d1 Hd1].
  exists d1. split; [done|].
  destruct (blank_Calc_field m nf offs Htopo points d0 d1 Hblank Hd1)
    as (Hshape & _ & _ & _ & _ & Hzero).
  destruct Hd1 as [fuel Hcalc].
  pose proof (Calc_fields _ _ _ _ Hcalc) as [HM Hnf].
  pose proof (BlankDMap_fields _ _ _ Hblank) as [HM0 Hnf0].
  pose proof Hcalc as (pts & pts' & Hset & Hloop & Hd1)%Calc_Done.
  assert (sweep m nf pts' = Some (pts', false)) as Hsw.
  { rewrite HM0, Hnf0 in Hloop.
    assert (Shape m pts) as Hshape1.
    { eapply setTargets_Shape; [|exact Hset]. by eapply BlankDMap_Shape. }
    exact (proj1 (relaxLoop_Done_settled m nf fuel pts pts' Hshape1 Hloop)). }
  unfold Calc. rewrite (setTargets_same _ _ Hzero). simpl.
  rewrite HM, Hnf, HM0, Hnf0. subst d1. simpl. by rewrite Hsw, HM0, Hnf0.
Qed.

Lemma Calc_idempotent_witness :
  ∃ d1, CalcReturns
          (mkDijkstraMap (replicate 3 (replicate 3 RankMax))
             (rectMap 3 3 (λ x y, negb ((x =? 1) && (y =? 0)))) ManhattanNeighbours)
          [target 0 0; target 1 0] d1 ∧
        Calc 1 d1 [target 0 0; target 1 0] = Done d1.
Proof.
  apply (Calc_idempotent (rectMap 3 3 (λ x y, negb ((x =? 1) && (y =? 0))))
           ManhattanNeighbours manhattanOffsets).
  - apply rectMap_OK.
  - apply ManhattanNeighbours_topology.
  - repeat constructor; simpl; lia.
  - reflexivity.
Defined.

(** ** The bound [RankMax] *)

Lemma all_RankMax_Bounded pts :
  Forall (Forall (λ r, r = RankMax)) pts → Bounded pts.
Proof.
  intros Hall. eapply Forall_impl; [exact Hall|].
  intros row Hrow. eapply Forall_impl; [exact Hrow|]. by intros r ->.
Qed.

Lemma Calc_Bounded {P : Type} `{Point P} fuel d (points : list P) d' :
  Bounded (Points d) → Calc fuel d points = Done d' → Bounded (Points d').
Proof.
  apply (Calc_inv Bounded).
  - intros q x y q' Hq. apply setPoint_Forall; [done|]. unfold RankMax, MaxUint16. lia.
  - intros ? ? ? ? ?. apply relax_Bounded.
Qed.

Lemma Recalc_Bounded {P : Type} `{Point P} fuel d (points : list P) d' :
  Recalc fuel d points = Done d' → Bounded (Points d').
Proof.
  unfold Recalc. apply Calc_Bounded. simpl.
  apply Forall_fmap, Forall_forall. intros row _. simpl.
  apply Forall_fmap, Forall_forall. intros r _. simpl. done.
Qed.

(** C8.  No rank exceeds [RankMax] after [BlankDMap]; [Calc] and
    [Recalc] with in-bounds targets return and keep that bound; and on a
    grid within the bound the rank [LowestNeighbour] returns can be
    incremented without leaving [uint16], every relaxation test keeping
    the grid within the bound. *)
Theorem RankMax_bounds_every_rank
  {P : Type} `{Point P} (d : DijkstraMap) (offs : list (Z * Z)) (points : list P) :
  MapOK (M d) → IsTopology offs (NeigbourFunc d) → WellFormed d →
  TargetsInBounds (M d) points →
  (∀ d0, BlankDMap (M d) (NeigbourFunc d) = Some d0 → Bounded (Points d0)) ∧
  (Bounded (Points d) → ∃ d', CalcReturns d points d' ∧ Bounded (Points d')) ∧
  (∃ d', RecalcReturns d points d' ∧ Bounded (Points d')) ∧
  (∀ pts x y, Bounded pts → RanksOK pts →
     (∀ wp, LowestNeighbour (mkDijkstraMap pts (M d) (NeigbourFunc d)) x y = Some wp →
            rank_succ (Val wp) = Val wp + 1 ∧ Val wp + 1 ≤ MaxUint16) ∧
     (∀ mut s', relax (M d) (NeigbourFunc d) x y (pts, mut) = Some s' →
                Bounded s'.1 ∧ RanksOK s'.1)).
Proof.
  intros Hok Htopo Hwf Hin. split_and!.
  - intros d0 Hblank. by eapply BlankDMap_Bounded.
  - intros Hbound.
    destruct (Calc_terminates_from d points) as (pts & _ & d' & Hd');
      [by eapply topology_NeighbourFnOK | done.. |].
    exists d'. split; [by eexists | by eapply Calc_Bounded].
  - destruct (Recalc_blank_Calc 0 d points (proj1 Hwf)) as (d0 & Hblank & _).
    pose proof (BlankDMap_fields _ _ _ Hblank) as [HM Hnf].
    destruct (Calc_terminates_from d0 points) as (pts & _ & d' & Hd').
    { rewrite HM, Hnf. by eapply topology_NeighbourFnOK. }
    { by eapply BlankDMap_WellFormed. }
    { by rewrite HM. }
    assert (Recalc (S (Z.to_nat (total pts))) d points = Done d') as Hre.
    { destruct (Recalc_blank_Calc (S (Z.to_nat (total pts))) d points (proj1 Hwf))
        as (d0' & Hblank' & ->). by simplify_eq. }
    exists d'. split; [by eexists | by eapply Recalc_Bounded].
  - intros pts x y Hbound Hranks. split.
    + intros wp Hln.
      apply (LowestNeighbour_topology _ _ offs Htopo) in Hln as (Hrange & _); [|done..].
      unfold RankMax, MaxUint16 in *. rewrite rank_succ_small; unfold MaxUint16; lia.
    + intros mut s' Hrel. split; [by eapply relax_Bounded | by eapply relax_RanksOK].
Qed.

Lemma RankMax_bounds_every_rank_witness :
  let d := mkDijkstraMap [[65525; 12]; [0; 65525]] (rectMap 2 2 (λ _ _, true))
             DiagonalNeighbours in
  (∀ d0, BlankDMap (M d) (NeigbourFunc d) = Some d0 → Bounded (Points d0)) ∧
  (Bounded (Points d) → ∃ d', CalcReturns d [target 1 1] d' ∧ Bounded (Points d')) ∧
  (∃ d', RecalcReturns d [target 1 1] d' ∧ Bounded (Points d')) ∧
  (∀ pts x y, Bounded pts → RanksOK pts →
     (∀ wp, LowestNeighbour (mkDijkstraMap pts (M d) (NeigbourFunc d)) x y = Some wp →
            rank_succ (Val wp) = Val wp + 1 ∧ Val wp + 1 ≤ MaxUint16) ∧
     (∀ mut s', relax (M d) (NeigbourFunc d) x y (pts, mut) = Some s' →
                Bounded s'.1 ∧ RanksOK s'.1)).
Proof.
  apply (RankMax_bounds_every_rank
           (mkDijkstraMap [[65525; 12]; [0; 65525]] (rectMap 2 2 (λ _ _, true))
              DiagonalNeighbours)
           diagonalOffsets [target 1 1]).
  - apply rectMap_OK.
  - apply DiagonalNeighbours_topology.
  - split; [split; [reflexivity | repeat constructor]
           | repeat constructor; unfold MaxUint16; lia].
  - repeat constructor; simpl; lia.
Defined.

(** C10.  The target writes of [Calc] are unchecked: with every target
    inside the grid's dimensions they all succeed, and with any target
    outside them [Calc] panics, whereas [GetValPoint] answers for an
    out-of-bounds coordinate. *)
Theorem Calc_targets_must_be_in_bounds
  {P : Type} `{Point P} (d : DijkstraMap) (points : list P) :
  MapOK (M d) → Shape (M d) (Points d) →
  (TargetsInBounds (M d) points → is_Some (setTargets (Points d) points)) ∧
  (¬ TargetsInBounds (M d) points → ∀ fuel, Calc fuel d points = Panicked) ∧
  (∀ x y, ¬ InBounds (M d) x y →
          GetValPoint (Points d) (M d) x y = Some (mkWeightedPoint x y RankMax)).
Proof.
  intros Hok Hshape. split_and!.
  - by apply setTargets_total.
  - intros Hnot fuel. unfold Calc.
    by rewrite (setTargets_out_of_bounds _ _ _ Hshape Hnot).
  - intros x y Hout. apply GetValPoint_Some. left. split; [|done]. by apply Hok.
Qed.

Lemma Calc_targets_must_be_in_bounds_witness :
  let d := mkDijkstraMap (replicate 2 (replicate 2 RankMax)) (rectMap 2 2 (λ _ _, true))
             ManhattanNeighbours in
  (TargetsInBounds (M d) [target 0 0; target 2 0] →
   is_Some (setTargets (Points d) [target 0 0; target 2 0])) ∧
  (¬ TargetsInBounds (M d) [target 0 0; target 2 0] →
   ∀ fuel, Calc fuel d [target 0 0; target 2 0] = Panicked) ∧
  (∀ x y, ¬ InBounds (M d) x y →
          GetValPoint (Points d) (M d) x y = Some (mkWeightedPoint x y RankMax)).
Proof.
  apply (Calc_targets_must_be_in_bounds
           (mkDijkstraMap (replicate 2 (replicate 2 RankMax)) (rectMap 2 2 (λ _ _, true))
              ManhattanNeighbours)
           [target 0 0; target 2 0]).
  - apply rectMap_OK.
  - split; [reflexivity | repeat constructor].
Defined.

Example out_of_bounds_target_panics :
  blankCalc 5 (rectMap 2 2 (λ _ _, true)) ManhattanNeighbours [target 0 0; target 2 0]
  = Panicked.
Proof. reflexivity. Qed.

(** ** Textual rendering *)

Example String_2x2 :
  String (mkDijkstraMap [[2; 1]; [0; 65525]] (rectMap 2 2 (λ _ _, true)) ManhattanNeighbours)
  = list_ascii_of_string "     2,      1, " ++ [newline]
    ++ list_ascii_of_string "     0,  65525, " ++ [newline].
Proof. vm_compute. reflexivity. Qed.

Lemma decimal_go_acc fuel n acc :
  decimal_go fuel n acc = decimal_go fuel n [] ++ acc.
Proof.
  revert n acc. induction fuel as [|fuel IH]; intros n acc; simpl; [done|].
  case_decide; [done|].
  rewrite (IH _ (_ :: acc)), (IH _ [_]), <- app_assoc. done.
Qed.

Lemma decimal_go_length fuel n (k : nat) :
  0 ≤ n < 10 ^ Z.of_nat (S k) → (length (decimal_go fuel n []) ≤ S k)%nat.
Proof.
  revert fuel n. induction k as [|k IH]; intros fuel n Hn.
  - destruct fuel as [|fuel]; simpl; [lia|].
    case_decide as Hq; [simpl; lia|].
    destruct Hq. apply Z.div_small. lia.
  - destruct fuel as [|fuel]; simpl; [lia|].
    case_decide as Hq; [simpl; lia|].
    rewrite decimal_go_acc, length_app. simpl.
    specialize (IH fuel (n / 10)).
    assert (0 ≤ n / 10 < 10 ^ Z.of_nat (S k)); [|lia].
    split; [apply Z.div_pos; lia|].
    apply Z.div_lt_upper_bound; [lia|].
    replace (Z.of_nat (S (S k))) with (Z.succ (Z.of_nat (S k))) in Hn by lia.
    rewrite Z.pow_succ_r in Hn by lia. lia.
Qed.

Lemma decimal_go_nonempty fuel n : (1 ≤ length (decimal_go (S fuel) n []))%nat.
Proof.
  simpl. case_decide; [simpl; lia|].
  rewrite decimal_go_acc, length_app. simpl. lia.
Qed.

Lemma formatDecimal_length r :
  0 ≤ r ≤ MaxUint16 → (1 ≤ length (formatDecimal r) ≤ 5)%nat.
Proof.
  intros Hr. unfold formatDecimal. split; [apply decimal_go_nonempty|].
  apply (decimal_go_length _ _ 4). unfold MaxUint16 in Hr. simpl. lia.
Qed.

Lemma decodeDecimal_snoc s c :
  decodeDecimal (s ++ [c]) = decodeDecimal s * 10 + (Z.of_nat (nat_of_ascii c) - 48).
Proof. unfold decodeDecimal. by rewrite foldl_app. Qed.

Lemma digitChar_value k :
  0 ≤ k < 10 → Z.of_nat (nat_of_ascii (digitChar k)) - 48 = k.
Proof.
  intros Hk. unfold digitChar. rewrite nat_ascii_embedding; lia.
Qed.

Lemma decimal_go_decode fuel n :
  0 ≤ n < 2 ^ Z.of_nat fuel → decodeDecimal (decimal_go fuel n []) = n.
Proof.
  revert n. induction fuel as [|fuel IH]; intros n Hn.
  - simpl in *. assert (n = 0) as -> by lia. done.
  - simpl. pose proof (Z.mod_pos_bound n 10 ltac:(lia)) as Hmod.
    pose proof (Z.div_mod n 10 ltac:(lia)) as Hdm.
    case_decide as Hq.
    + change [digitChar (n mod 10)] with ([] ++ [digitChar (n mod 10)]).
      rewrite decodeDecimal_snoc, digitChar_value by done.
      unfold decodeDecimal. simpl. lia.
    + rewrite decimal_go_acc, decodeDecimal_snoc, digitChar_value by done.
      rewrite IH; [lia|]. split; [apply Z.div_pos; lia|].
      apply Z.div_lt_upper_bound; [lia|].
      replace (Z.of_nat (S fuel)) with (Z.succ (Z.of_nat fuel)) in Hn by lia.
      rewrite Z.pow_succ_r in Hn by lia. lia.
Qed.

(** The digits written denote the value. *)
Lemma formatDecimal_decode r : 0 ≤ r → decodeDecimal (formatDecimal r) = r.
Proof.
  intros Hr. unfold formatDecimal. apply decimal_go_decode.
  split; [done|]. destruct (decide (r = 0)) as [->|Hne]; [done|].
  replace (Z.of_nat (S (Z.to_nat (Z.log2 r)))) with (Z.succ (Z.log2 r)).
  - apply Z.log2_spec. lia.
  - pose proof (Z.log2_nonneg r). lia.
Qed.

Lemma Sprintf_6d_length r :
  0 ≤ r ≤ MaxUint16 → length (Sprintf_6d r) = 6%nat.
Proof.
  intros Hr%formatDecimal_length. unfold Sprintf_6d. simpl.
  rewrite length_app, length_replicate. lia.
Qed.

(** The buffer after the loops is the concatenation of what was written. *)
Lemma foldl_buffer {A B} (f : A → list B) (l : list A) (buf : list B) :
  foldl (λ b a, b ++ f a) buf l = buf ++ (l ≫= f).
Proof.
  revert buf. induction l as [|a l IH]; intros buf; simpl.
  - by rewrite app_nil_r.
  - by rewrite IH, app_assoc.
Qed.

Lemma foldl_pointwise {A B} (f g : B → A → B) (l : list A) (b : B) :
  (∀ b a, f b a = g b a) → foldl f b l = foldl g b l.
Proof.
  intros Hfg. revert b. induction l as [|a l IH]; intros b; simpl; [done|].
  by rewrite Hfg, IH.
Qed.

Lemma String_concat d : String d = Points d ≫= writeRow.
Proof.
  unfold String.
  rewrite <- (app_nil_l (Points d ≫= writeRow)), <- foldl_buffer.
  apply foldl_pointwise. intros buf row. unfold writeRow.
  rewrite app_assoc. f_equal. rewrite <- foldl_buffer.
  apply foldl_pointwise. intros b v. unfold writeCell. by rewrite app_assoc.
Qed.

Lemma bind_length {A B} (f : A → list B) (k : nat) (l : list A) :
  Forall (λ a, length (f a) = k) l → length (l ≫= f) = (length l * k)%nat.
Proof.
  induction 1 as [|a l Ha _ IH]; [done|].
  rewrite bind_cons, length_app, Ha, IH. simpl. lia.
Qed.

(** Where the [i]-th block starts when all blocks have the same length. *)
Lemma bind_block {A B} (f : A → list B) (k : nat) (l : list A) (i : nat) (a : A) :
  Forall (λ a, length (f a) = k) l → l !! i = Some a →
  ∃ pre post, l ≫= f = pre ++ f a ++ post ∧ length pre = (i * k)%nat.
Proof.
  intros Hall. revert i. induction Hall as [|a0 l Ha0 _ IH]; intros i Hi; [done|].
  destruct i as [|i]; simpl in Hi.
  - injection Hi as ->. exists [], (l ≫= f). by rewrite bind_cons.
  - destruct (IH i Hi) as (pre & post & Heq & Hlen).
    exists (f a0 ++ pre), post. rewrite bind_cons, Heq, length_app, Ha0, Hlen.
    split; [by rewrite <- app_assoc | lia].
Qed.

Lemma writeCell_length r : 0 ≤ r ≤ MaxUint16 → length (writeCell r) = 8%nat.
Proof.
  intros Hr. unfold writeCell. rewrite length_app, Sprintf_6d_length by done. done.
Qed.

Lemma writeRow_length row :
  Forall (λ r, 0 ≤ r ≤ MaxUint16) row →
  length (writeRow row) = (length row * 8 + 1)%nat.
Proof.
  intros Hrow. unfold writeRow. rewrite length_app.
  rewrite (bind_length writeCell 8); [simpl; lia|].
  eapply Forall_impl; [exact Hrow|]. intros r. apply writeCell_length.
Qed.

Lemma WellFormed_rows d :
  WellFormed d →
  Forall (λ row, length (writeRow row) = Z.to_nat (8 * SizeY (M d) + 1)) (Points d).
Proof.
  intros [[_ Hrows] Hranks]. apply Forall_forall. intros row Hrow.
  unfold RanksOK in Hranks. rewrite Forall_forall in Hrows, Hranks.
  rewrite writeRow_length by (by apply Hranks).
  specialize (Hrows _ Hrow). simpl in Hrows. lia.
Qed.

(** C9, as amended.  [String] writes the grid row by row.  Each cell takes
    8 characters: its rank in decimal, at most five digits, set right in a
    field of 6 by spaces put in front of it, then a comma and a space.
    Each row is closed by a newline. *)
Theorem String_layout (d : DijkstraMap) :
  WellFormed d →
  Z.of_nat (length (String d)) = SizeX (M d) * (8 * SizeY (M d) + 1) ∧
  (∀ x y r, getPoint (Points d) x y = Some r →
     ∃ pre post digits,
       String d = pre ++ (replicate (6 - length digits) space ++ digits)
                      ++ [comma; space] ++ post ∧
       Z.of_nat (length pre) = x * (8 * SizeY (M d) + 1) + 8 * y ∧
       digits = formatDecimal r ∧ (1 ≤ length digits ≤ 5)%nat ∧
       decodeDecimal digits = r) ∧
  (∀ x, 0 ≤ x < SizeX (M d) →
     ∃ pre post,
       String d = pre ++ [newline] ++ post ∧
       Z.of_nat (length pre) = x * (8 * SizeY (M d) + 1) + 8 * SizeY (M d)).
Proof.
  intros Hwf. pose proof (WellFormed_rows d Hwf) as Hblocks.
  destruct Hwf as [[Hlen Hrows] Hranks]. unfold RanksOK in Hranks.
  rewrite String_concat. split_and!.
  - rewrite (bind_length _ _ _ Hblocks).
    destruct (Points d) as [|row rest] eqn:Hpts; [simpl in *; lia|].
    apply Forall_cons in Hrows as [Hrow _]. simpl in *. nia.
  - intros x y r Hr. pose proof (getPoint_Forall _ _ _ _ _ Hranks Hr) as Hrange.
    simpl in Hrange.
    apply getPoint_Some in Hr as (row & [Hx Hrow]%index_Some & [Hy Hcell]%index_Some).
    destruct (bind_block _ _ _ _ _ Hblocks Hrow) as (pre & post & Heq & Hpre).
    assert (Forall (λ r, 0 ≤ r ≤ MaxUint16) row) as Hrowok.
    { rewrite Forall_lookup in Hranks. exact (Hranks _ _ Hrow). }
    assert (Forall (λ v, length (writeCell v) = 8%nat) row) as Hcells.
    { eapply Forall_impl; [exact Hrowok|]. intros v. apply writeCell_length. }
    destruct (bind_block _ _ _ _ _ Hcells Hcell) as (cpre & cpost & Hceq & Hcpre).
    exists (pre ++ cpre), (cpost ++ [newline] ++ post), (formatDecimal r).
    split; [|split; [|split; [done|split]]].
    + rewrite Heq. unfold writeRow. rewrite Hceq. unfold writeCell, Sprintf_6d.
      simpl. rewrite <- !app_assoc. done.
    + rewrite length_app, Hpre, Hcpre.
      assert (0 ≤ SizeY (M d)).
      { rewrite Forall_lookup in Hrows. specialize (Hrows _ _ Hrow). simpl in Hrows. lia. }
      lia.
    + by apply formatDecimal_length.
    + apply formatDecimal_decode. lia.
  - intros x Hx.
    destruct (lookup_lt_is_Some_2 (Points d) (Z.to_nat x)) as [row Hrow]; [lia|].
    destruct (bind_block _ _ _ _ _ Hblocks Hrow) as (pre & post & Heq & Hpre).
    assert (Forall (λ r, 0 ≤ r ≤ MaxUint16) row) as Hrowok.
    { rewrite Forall_lookup in Hranks. exact (Hranks _ _ Hrow). }
    exists (pre ++ (row ≫= writeCell)), post. split.
    + rewrite Heq. unfold writeRow. by rewrite <- !app_assoc.
    + rewrite length_app, Hpre, (bind_length writeCell 8).
      * rewrite Forall_lookup in Hrows. specialize (Hrows _ _ Hrow). simpl in Hrows. lia.
      * eapply Forall_impl; [exact Hrowok|]. intros v. apply writeCell_length.
Qed.

Lemma String_layout_witness :
  let d := mkDijkstraMap [[2; 1]; [0; 65525]] (rectMap 2 2 (λ _ _, true))
             ManhattanNeighbours in
  Z.of_nat (length (String d)) = SizeX (M d) * (8 * SizeY (M d) + 1) ∧
  (∀ x y r, getPoint (Points d) x y = Some r →
     ∃ pre post digits,
       String d = pre ++ (replicate (6 - length digits) space ++ digits)
                      ++ [comma; space] ++ post ∧
       Z.of_nat (length pre) = x * (8 * SizeY (M d) + 1) + 8 * y ∧
       digits = formatDecimal r ∧ (1 ≤ length digits ≤ 5)%nat ∧
       decodeDecimal digits = r) ∧
  (∀ x, 0 ≤ x < SizeX (M d) →
     ∃ pre post,
       String d = pre ++ [newline] ++ post ∧
       Z.of_nat (length pre) = x * (8 * SizeY (M d) + 1) + 8 * SizeY (M d)).
Proof.
  apply (String_layout
           (mkDijkstraMap [[2; 1]; [0; 65525]] (rectMap 2 2 (λ _ _, true))
              ManhattanNeighbours)).
  split; [split; [reflexivity | repeat constructor]
         | repeat constructor; unfold MaxUint16; lia].
Defined.

(** C9 as stated fails: the single cell of a 1 by 1 grid holding rank 0 is
    written as five spaces and then the digit, not as the digit and then
    five spaces. *)
Lemma String_pads_on_the_left :
  String (mkDijkstraMap [[0]] (rectMap 1 1 (λ _ _, true)) ManhattanNeighbours)
  = list_ascii_of_string "     0, " ++ [newline] ∧
  formatDecimal 0 = list_ascii_of_string "0" ∧
  padRight 6 (formatDecimal 0) = list_ascii_of_string "0     " ∧
  take 6 (String (mkDijkstraMap [[0]] (rectMap 1 1 (λ _ _, true)) ManhattanNeighbours))
  ≠ padRight 6 (formatDecimal 0).
Proof. split_and!; [reflexivity..|]. vm_compute. discriminate. Qed.

(** * Further properties of the engine *)

(** ** [LowestNeighbour] *)

Lemma lowest_scan_app vals1 vals2 lv ret :
  lowest_scan (vals1 ++ vals2) lv ret
  = lowest_scan vals2 (lowest_scan vals1 lv ret).1 (lowest_scan vals1 lv ret).2.
Proof.
  unfold lowest_scan. rewrite foldl_app.
  by destruct (foldl _ (lv, ret) vals1).
Qed.

Lemma lowest_scan_keeps vals lv ret :
  (∀ v, v ∈ vals → lv ≤ Val v) → lowest_scan vals lv ret = (lv, ret).
Proof.
  unfold lowest_scan. induction vals as [|v vals IH]; intros Hall; simpl; [done|].
  case_decide as Hlt.
  - specialize (Hall v ltac:(apply elem_of_cons; by left)). simpl in Hlt. lia.
  - apply IH. intros v' Hv'. apply Hall. apply elem_of_cons. by right.
Qed.

Lemma lowest_scan_above vals lv ret b :
  b < lv → (∀ v, v ∈ vals → b < Val v) → b < (lowest_scan vals lv ret).1.
Proof.
  intros Hlv Hall.
  destruct (lowest_scan_spec vals lv ret) as [_ [[-> _]|(_ & Hin & <-)]]; [done|].
  by apply Hall.
Qed.

(** X1.  When some sample is below [RankMax], [LowestNeighbour] returns
    the first sample of least rank: ties go to the sample enumerated
    first. *)
Theorem LowestNeighbour_first_minimum
  (d : DijkstraMap) (x y : Z) (vals : list WeightedPoint) (i : nat) (wp : WeightedPoint) :
  NeigbourFunc d (Points d) (M d) x y = Some vals →
  vals !! i = Some wp →
  Val wp < RankMax →
  (∀ v, v ∈ vals → Val wp ≤ Val v) →
  (∀ j v, (j < i)%nat → vals !! j = Some v → Val wp < Val v) →
  LowestNeighbour d x y = Some wp.
Proof.
  intros Hnf Hi Hsmall Hmin Hfirst. unfold LowestNeighbour. rewrite Hnf. simpl.
  destruct (vals !! 0%nat) as [v0|] eqn:Hv0; simpl.
  2: { apply lookup_ge_None in Hv0. apply lookup_lt_Some in Hi. lia. }
  f_equal. rewrite <- (take_drop_middle vals i wp Hi), lowest_scan_app.
  set (r := lowest_scan (take i vals) RankMax v0).
  assert (Val wp < r.1) as Hr.
  { apply lowest_scan_above; [done|]. intros v Hv.
    apply list_elem_of_lookup in Hv as [j Hj].
    pose proof (lookup_lt_Some _ _ _ Hj) as Hlen. rewrite length_take in Hlen.
    rewrite lookup_take_lt in Hj by lia. apply (Hfirst j); [lia|done]. }
  unfold lowest_scan at 1. simpl. rewrite decide_True by done.
  fold (lowest_scan (drop (S i) vals) (Val wp) wp).
  rewrite lowest_scan_keeps; [done|].
  intros v Hv. apply Hmin. by eapply subseteq_drop.
Qed.

Lemma LowestNeighbour_first_minimum_witness :
  LowestNeighbour
    (mkDijkstraMap [[9]] (rectMap 1 1 (λ _ _, true))
       (λ _ _ _ _, Some [mkWeightedPoint 1 0 5; mkWeightedPoint (-1) 0 3;
                         mkWeightedPoint 0 (-1) 7; mkWeightedPoint 0 1 3]))
    0 0
  = Some (mkWeightedPoint (-1) 0 3).
Proof.
  apply (LowestNeighbour_first_minimum _ 0 0
           [mkWeightedPoint 1 0 5; mkWeightedPoint (-1) 0 3;
            mkWeightedPoint 0 (-1) 7; mkWeightedPoint 0 1 3] 1).
  - reflexivity.
  - reflexivity.
  - reflexivity.
  - intros v Hv. repeat (apply elem_of_cons in Hv as [->|Hv]; [simpl; lia|]).
    by apply elem_of_nil in Hv.
  - intros j v Hj Hv. destruct j as [|j]; [|lia]. injection Hv as <-. simpl. lia.
Defined.

(** X2.  When no sample is below [RankMax], [LowestNeighbour] returns
    [vals[0]] as it is, whether or not it is the lowest sample; with no
    sample at all it panics. *)
Theorem LowestNeighbour_without_low_sample
  (d : DijkstraMap) (x y : Z) (vals : list WeightedPoint) :
  NeigbourFunc d (Points d) (M d) x y = Some vals →
  (∀ v, v ∈ vals → RankMax ≤ Val v) →
  LowestNeighbour d x y = vals !! 0%nat.
Proof.
  intros Hnf Hall. unfold LowestNeighbour. rewrite Hnf. simpl.
  destruct (vals !! 0%nat) as [v0|]; simpl; [|done].
  by rewrite lowest_scan_keeps.
Qed.

Lemma LowestNeighbour_without_low_sample_witness :
  LowestNeighbour
    (mkDijkstraMap [[9]] (rectMap 1 1 (λ _ _, true))
       (λ _ _ _ _, Some [mkWeightedPoint 1 0 65535; mkWeightedPoint (-1) 0 65530]))
    0 0
  = [mkWeightedPoint 1 0 65535; mkWeightedPoint (-1) 0 65530] !! 0%nat.
Proof.
  apply (LowestNeighbour_without_low_sample _ 0 0
           [mkWeightedPoint 1 0 65535; mkWeightedPoint (-1) 0 65530]).
  - reflexivity.
  - intros v Hv. repeat (apply elem_of_cons in Hv as [->|Hv]; [by vm_compute|]).
    by apply elem_of_nil in Hv.
Defined.

(** ** The reference neighbour functions *)

(** Under the grid contract a lookup answers at every coordinate: the
    stored rank inside the grid, [RankMax] outside. *)
Lemma GetValPoint_contract pts m x y :
  MapOK m → Shape m pts →
  GetValPoint pts m x y = Some (mkWeightedPoint x y (default RankMax (getPoint pts x y))).
Proof.
  intros Hok Hshape. apply GetValPoint_Some.
  destruct (OOB m x y) eqn:Hoob.
  - left. split; [done|]. apply Hok in Hoob.
    destruct (getPoint pts x y) as [r|] eqn:Hr; [|done].
    destruct Hoob. apply (Shape_getPoint _ _ _ _ Hshape). eauto.
  - right. split; [done|].
    assert (InBounds m x y) as Hin.
    { destruct (decide (InBounds m x y)) as [|Hn]; [done|]. apply Hok in Hn. congruence. }
    apply (Shape_getPoint _ _ _ _ Hshape) in Hin as [r Hr]. rewrite Hr. eauto.
Qed.





(** ** What [Calc] leaves alone *)

(** X5.  [Calc] never writes an impassable cell that is not a target:
    such a cell holds afterwards what it held before, whatever the
    neighbour function. *)
Theorem Calc_leaves_impassable_cells
  {P : Type} `{Point P} (fuel : nat) (d : DijkstraMap) (points : list P)
  (d' : DijkstraMap) (x y : Z) :
  Calc fuel d points = Done d' →
  IsPassable (M d) x y = false →
  (x, y) ∉ coords points →
  getPoint (Points d') x y = getPoint (Points d) x y.
Proof.
  intros (pts & pts' & Hset & Hloop & ->)%Calc_Done Himp Hnot. simpl.
  rewrite <- (setTargets_other _ _ _ _ _ Hset Hnot).
  apply (relaxLoop_inv _ _ (λ q, getPoint q x y = getPoint pts x y)) in Hloop; [done| |done].
  intros x1 y1 q mut [q' mu'] Hq Hrel. simpl.
  apply relax_cases in Hrel as [[-> _]|(Hpass & _ & wp & cur & _ & _ & _ & Hw)]; [done|].
  rewrite (getPoint_setPoint_ne _ _ _ _ _ _ _ Hw); [done|].
  intros [= -> ->]. congruence.
Qed.

Lemma Calc_leaves_impassable_cells_witness :
  ∃ d', Calc 5 (mkDijkstraMap [[9; 4; 9]] (rectMap 1 3 (λ _ y, negb (y =? 1)))
                  ManhattanNeighbours) [target 0 0] = Done d' ∧
        getPoint (Points d') 0 1 = Some 4.
Proof.
  eexists. split; [reflexivity|].
  apply (Calc_leaves_impassable_cells 5
           (mkDijkstraMap [[9; 4; 9]] (rectMap 1 3 (λ _ y, negb (y =? 1)))
              ManhattanNeighbours) [target 0 0] _ 0 1).
  - reflexivity.
  - reflexivity.
  - intros Hin. apply list_elem_of_singleton in Hin. discriminate.
Defined.

(** X6.  [Calc] does not reset the field: a cell that holds 0 when [Calc]
    is called, such as a target of an earlier call, still holds 0 when it
    returns. *)
Theorem Calc_keeps_old_zeros
  {P : Type} `{Point P} (fuel : nat) (d : DijkstraMap) (points : list P)
  (d' : DijkstraMap) (x y : Z) :
  Calc fuel d points = Done d' →
  getPoint (Points d) x y = Some 0 →
  getPoint (Points d') x y = Some 0.
Proof.
  intros Hcalc Hzero. revert Hcalc.
  apply (Calc_inv (λ q, getPoint q x y = Some 0)); [| |done].
  - intros q x1 y1 q' Hq Hw. rewrite (getPoint_setPoint _ _ _ _ _ _ _ Hw).
    by case_decide.
  - intros x1 y1 q mut s' Hq. by apply relax_zero.
Qed.

Lemma Calc_keeps_old_zeros_witness :
  ∃ d', Calc 5 (mkDijkstraMap [[0; 1; 2; 3]] (rectMap 1 4 (λ _ _, true))
                  ManhattanNeighbours) [target 0 3] = Done d' ∧
        getPoint (Points d') 0 0 = Some 0.
Proof.
  eexists. split; [reflexivity|].
  apply (Calc_keeps_old_zeros 5
           (mkDijkstraMap [[0; 1; 2; 3]] (rectMap 1 4 (λ _ _, true))
              ManhattanNeighbours) [target 0 3] _ 0 0).
  - reflexivity.
  - reflexivity.
Defined.

(** X7.  [Recalc] forgets the old field: on two maps over the same grid
    with the same neighbour function, whatever their rank grids of the
    grid's dimensions hold, it ends the same way and leaves the same
    map. *)
Theorem Recalc_forgets_old_ranks
  {P : Type} `{Point P} (fuel : nat) (d1 d2 : DijkstraMap) (points : list P) :
  M d1 = M d2 → NeigbourFunc d1 = NeigbourFunc d2 →
  Shape (M d1) (Points d1) → Shape (M d2) (Points d2) →
  Recalc fuel d1 points = Recalc fuel d2 points.
Proof.
  intros HM Hnf Hs1 Hs2.
  destruct (Recalc_blank_Calc fuel d1 points Hs1) as (b1 & Hb1 & ->).
  destruct (Recalc_blank_Calc fuel d2 points Hs2) as (b2 & Hb2 & ->).
  rewrite HM, Hnf in Hb1. by simplify_eq.
Qed.

Lemma Recalc_forgets_old_ranks_witness :
  Recalc 6 (mkDijkstraMap [[0; 1]; [5; 65535]] (rectMap 2 2 (λ _ _, true)) DiagonalNeighbours)
         [target 1 1]
  = Recalc 6 (mkDijkstraMap [[7; 7]; [7; 7]] (rectMap 2 2 (λ _ _, true)) DiagonalNeighbours)
           [target 1 1].
Proof.
  apply (Recalc_forgets_old_ranks 6
           (mkDijkstraMap [[0; 1]; [5; 65535]] (rectMap 2 2 (λ _ _, true)) DiagonalNeighbours)
           (mkDijkstraMap [[7; 7]; [7; 7]] (rectMap 2 2 (λ _ _, true)) DiagonalNeighbours)
           [target 1 1]).
  - reflexivity.
  - reflexivity.
  - split; [reflexivity | repeat constructor].
  - split; [reflexivity | repeat constructor].
Defined.

(** ** Fields at the fixed point *)

Lemma Hops_mono m offs offs' ts ts' n c :
  offs ⊆ offs' → ts ⊆ ts' → Hops m offs ts n c → Hops m offs' ts' n c.
Proof.
  intros Hoffs Hts. induction 1 as [c Hc|n c o Hin Hpass Ho _ IH].
  - constructor. by apply Hts.
  - eapply Hops_step; [done..| |exact IH]. by apply Hoffs.
Qed.

Lemma Sound_mono m offs offs' ts ts' pts :
  offs ⊆ offs' → ts ⊆ ts' → Sound m offs ts pts → Sound m offs' ts' pts.
Proof.
  intros Hoffs Hts Hsound x y r Hr Hsmall.
  eapply Hops_mono; [done..|]. by apply Hsound.
Qed.

Lemma getPoint_ext m p q :
  Shape m p → Shape m q → (∀ x y, getPoint p x y = getPoint q x y) → p = q.
Proof.
  intros [Hlp Hrp] [Hlq Hrq] Heq. apply list_eq. intros i.
  destruct (p !! i) as [row1|] eqn:H1, (q !! i) as [row2|] eqn:H2.
  - f_equal. apply list_eq. intros j.
    specialize (Heq (Z.of_nat i) (Z.of_nat j)). unfold getPoint in Heq.
    rewrite !index_of_nat, H1, H2 in Heq. simpl in Heq. by rewrite !index_of_nat in Heq.
  - apply lookup_lt_Some in H1. apply lookup_ge_None in H2. lia.
  - apply lookup_ge_None in H1. apply lookup_lt_Some in H2. lia.
  - done.
Qed.

Lemma blank_Admissible m nf offs d0 :
  BlankDMap m nf = Some d0 → Admissible m offs [] (Points d0).
Proof.
  intros Hblank. split_and!.
  - by eapply BlankDMap_Shape.
  - by eapply BlankDMap_WellFormed.
  - by eapply BlankDMap_Bounded.
  - intros x y r Hr Hsmall.
    pose proof (getPoint_Forall _ _ _ _ _ (BlankDMap_all_RankMax _ _ _ Hblank) Hr) as Hmax.
    simpl in Hmax. lia.
  - intros t Ht. by apply elem_of_nil in Ht.
Qed.

Section FixedPoint.
Context {P : Type} `{Point P}.
Context (m : Map) (nf : NeighbourFn) (offs : list (Z * Z)).
Hypothesis HmapOK : MapOK m.
Hypothesis Htopology : IsTopology offs nf.

(** From an admissible field, [Calc] leaves a converged one, for the old
    targets and the new ones together. *)
Lemma Calc_Converged fuel d (points : list P) d' ts :
  M d = m → NeigbourFunc d = nf → Admissible m offs ts (Points d) →
  Calc fuel d points = Done d' →
  Converged m nf offs (ts ++ coords points) (Points d').
Proof.
  intros HM Hnf (Hshape & Hranks & Hbound & Hsound & Hzero) Hcalc.
  apply Calc_Done in Hcalc as (pts & pts' & Hset & Hloop & ->). simpl.
  rewrite HM, Hnf in Hloop.
  assert (Admissible m offs (ts ++ coords points) pts) as Hadm.
  { split_and!.
    - by eapply setTargets_Shape.
    - eapply (setTargets_Forall (λ r, 0 ≤ r ≤ MaxUint16)); [|done..].
      unfold MaxUint16. lia.
    - eapply (setTargets_Forall (λ r, r ≤ RankMax)); [|done..].
      unfold RankMax, MaxUint16. lia.
    - intros x y r Hr Hsmall.
      destruct (decide ((x, y) ∈ coords points)) as [Hin|Hnin].
      + pose proof (setTargets_zero _ _ _ _ Hset Hin) as Hz. simpl in Hz.
        assert (r = 0) as -> by congruence.
        constructor. apply elem_of_app. by right.
      + rewrite (setTargets_other _ _ _ _ _ Hset Hnin) in Hr.
        eapply Hops_mono; [done| |by apply Hsound].
        intros t Ht. apply elem_of_app. by left.
    - intros t [Ht|Ht]%elem_of_app; [|by eapply setTargets_zero].
      eapply (setTargets_inv (λ q, getPoint q t.1 t.2 = Some 0)); [|by apply Hzero|done].
      intros q x y q' Hq Hw. rewrite (getPoint_setPoint _ _ _ _ _ _ _ Hw).
      by case_decide. }
  split.
  - eapply (relaxLoop_inv m nf (Admissible m offs (ts ++ coords points))); [|done..].
    intros x y q mut s' (? & ? & ? & ? & Hz) Hrel. split_and!.
    + by eapply relax_Shape.
    + by eapply relax_RanksOK.
    + by eapply relax_Bounded.
    + by eapply relax_Sound.
    + intros t Ht. eapply relax_zero; [by apply Hz | done].
  - exact (proj2 (relaxLoop_Done_settled m nf fuel pts pts' (proj1 Hadm) Hloop)).
Qed.

Lemma blank_Calc_Converged (points : list P) d0 d :
  BlankDMap m nf = Some d0 → CalcReturns d0 points d →
  Converged m nf offs (coords points) (Points d).
Proof.
  intros Hblank [fuel Hcalc].
  pose proof (BlankDMap_fields _ _ _ Hblank) as [HM Hnf].
  apply (Calc_Converged fuel d0 points d []); [done..| |done].
  by eapply blank_Admissible.
Qed.
End FixedPoint.

(** A converged field is below every sound field for fewer targets and
    fewer offsets. *)
Lemma Converged_le m nf' offs offs' ts ts' pts pts' x y r :
  MapOK m → IsTopology offs' nf' →
  offs ⊆ offs' → ts ⊆ ts' →
  Shape m pts → Sound m offs ts pts → Converged m nf' offs' ts' pts' →
  getPoint pts x y = Some r →
  ∃ r', getPoint pts' x y = Some r' ∧ r' ≤ r.
Proof.
  intros Hok Htopo Hoffs Hts Hshape Hsound
    [(Hshape' & Hranks' & Hbound' & _ & Hzero') Hsettled'] Hr.
  assert (InBounds m x y) as Hin by (apply (Shape_getPoint _ _ _ _ Hshape); eauto).
  pose proof Hin as [r' Hr']%(Shape_getPoint _ _ _ _ Hshape').
  exists r'. split; [done|].
  pose proof (getPoint_Forall _ _ _ _ _ Hbound' Hr') as Hle. simpl in Hle.
  destruct (decide (r < RankMax)) as [Hsmall|Hbig]; [|lia].
  pose proof (Hops_mono _ _ _ _ _ _ _ Hoffs Hts (Hsound _ _ _ Hr Hsmall)) as Hhops.
  destruct (settled_rank_le_hops m nf' offs' ts' Hok Htopo pts' r (x, y))
    as (r'' & Hr'' & Hle''); [done..|].
  simpl in Hr''. assert (r'' = r') as -> by congruence. done.
Qed.

(** The converged field is unique: it depends on the targets as a set. *)
Lemma Converged_unique m nf offs ts ts' pts pts' :
  MapOK m → IsTopology offs nf → ts ⊆ ts' → ts' ⊆ ts →
  Converged m nf offs ts pts → Converged m nf offs ts' pts' → pts = pts'.
Proof.
  intros Hok Htopo H1 H2 Hc Hc'.
  pose proof Hc as [(Hshape & _ & _ & Hsound & _) _].
  pose proof Hc' as [(Hshape' & _ & _ & Hsound' & _) _].
  apply (getPoint_ext m); [done..|]. intros x y.
  destruct (getPoint pts x y) as [r|] eqn:Hr.
  - destruct (Converged_le m nf offs offs ts ts' pts pts' x y r)
      as (r' & Hr' & Hle); [done..|].
    destruct (Converged_le m nf offs offs ts' ts pts' pts x y r')
      as (r2 & Hr2 & Hle2); [done..|].
    assert (r2 = r) as -> by congruence. rewrite Hr'. f_equal. lia.
  - destruct (getPoint pts' x y) as [r'|] eqn:Hr'; [|done].
    assert (is_Some (getPoint pts x y)) as [? ?]; [|congruence].
    apply (Shape_getPoint _ _ _ _ Hshape), (Shape_getPoint _ _ _ _ Hshape'). eauto.
Qed.

Lemma TargetsInBounds_subseteq {P : Type} `{Point P} m (points points' : list P) :
  coords points ⊆ coords points' → TargetsInBounds m points' → TargetsInBounds m points.
Proof.
  unfold TargetsInBounds. intros Hsub Hin'. apply Forall_forall. intros p Hp.
  assert (GetXY p ∈ coords points') as Hc.
  { apply Hsub. unfold coords. by apply list_elem_of_fmap_2. }
  unfold coords in Hc. apply list_elem_of_fmap in Hc as (p' & Heq & Hp').
  rewrite Forall_forall in Hin'. rewrite Heq. by apply Hin'.
Qed.

Lemma manhattanOffsets_diagonalOffsets : manhattanOffsets ⊆ diagonalOffsets.
Proof.
  intros o Ho. unfold manhattanOffsets in Ho. unfold diagonalOffsets.
  repeat (apply elem_of_cons in Ho as [->|Ho];
          [repeat (first [apply list_elem_of_here | apply list_elem_of_further])|]).
  by apply elem_of_nil in Ho.
Qed.

(** X8.  After [BlankDMap] and [Calc], more targets never give a cell a
    higher rank: with every target of one call among those of another,
    each cell's rank under the larger set is at most its rank under the
    smaller. *)
Theorem more_targets_never_raise_a_rank
  {P : Type} `{Point P} (m : Map) (nf : NeighbourFn) (offs : list (Z * Z))
  (points points' : list P) (d0 : DijkstraMap) :
  MapOK m → IsTopology offs nf → TargetsInBounds m points' →
  coords points ⊆ coords points' →
  BlankDMap m nf = Some d0 →
  ∃ d d', CalcReturns d0 points d ∧ CalcReturns d0 points' d' ∧
    ∀ x y r, getPoint (Points d) x y = Some r →
      ∃ r', getPoint (Points d') x y = Some r' ∧ r' ≤ r.
Proof.
  intros Hok Htopo Hin' Hsub Hblank.
  pose proof (TargetsInBounds_subseteq _ _ _ Hsub Hin') as Hin.
  destruct (blank_Calc_returns m nf offs Hok Htopo points d0 Hblank Hin) as [d Hd].
  destruct (blank_Calc_returns m nf offs Hok Htopo points' d0 Hblank Hin') as [d' Hd'].
  exists d, d'. split_and!; [done..|]. intros x y r Hr.
  pose proof (blank_Calc_Converged m nf offs Htopo points d0 d Hblank Hd)
    as [(Hshape & _ & _ & Hsound & _) _].
  pose proof (blank_Calc_Converged m nf offs Htopo points' d0 d' Hblank Hd') as Hconv'.
  by eapply (Converged_le m nf offs offs (coords points) (coords points')).
Qed.

Lemma more_targets_never_raise_a_rank_witness :
  ∃ d d',
    CalcReturns (mkDijkstraMap (replicate 1 (replicate 4 RankMax))
                   (rectMap 1 4 (λ _ _, true)) ManhattanNeighbours) [target 0 0] d ∧
    CalcReturns (mkDijkstraMap (replicate 1 (replicate 4 RankMax))
                   (rectMap 1 4 (λ _ _, true)) ManhattanNeighbours)
                [target 0 3; target 0 0] d' ∧
    ∀ x y r, getPoint (Points d) x y = Some r →
      ∃ r', getPoint (Points d') x y = Some r' ∧ r' ≤ r.
Proof.
  apply (more_targets_never_raise_a_rank (rectMap 1 4 (λ _ _, true))
           ManhattanNeighbours manhattanOffsets [target 0 0] [target 0 3; target 0 0]).
  - apply rectMap_OK.
  - apply ManhattanNeighbours_topology.
  - repeat constructor; simpl; lia.
  - intros c Hc. apply list_elem_of_singleton in Hc as ->.
    apply list_elem_of_further, list_elem_of_here.
  - reflexivity.
Defined.

(** X9.  With the same grid and targets, no cell ranks higher under
    [DiagonalNeighbours] than under [ManhattanNeighbours]. *)
Theorem diagonal_ranks_at_most_manhattan
  {P : Type} `{Point P} (m : Map) (points : list P) (dM0 dD0 : DijkstraMap) :
  MapOK m → TargetsInBounds m points →
  BlankDMap m ManhattanNeighbours = Some dM0 →
  BlankDMap m DiagonalNeighbours = Some dD0 →
  ∃ dM dD, CalcReturns dM0 points dM ∧ CalcReturns dD0 points dD ∧
    ∀ x y r, getPoint (Points dM) x y = Some r →
      ∃ r', getPoint (Points dD) x y = Some r' ∧ r' ≤ r.
Proof.
  intros Hok Hin HblankM HblankD.
  destruct (blank_Calc_returns m _ _ Hok ManhattanNeighbours_topology points dM0 HblankM Hin)
    as [dM HdM].
  destruct (blank_Calc_returns m _ _ Hok DiagonalNeighbours_topology points dD0 HblankD Hin)
    as [dD HdD].
  exists dM, dD. split_and!; [done..|]. intros x y r Hr.
  pose proof (blank_Calc_Converged m _ _ ManhattanNeighbours_topology points dM0 dM HblankM HdM)
    as [(Hshape & _ & _ & Hsound & _) _].
  pose proof (blank_Calc_Converged m _ _ DiagonalNeighbours_topology points dD0 dD HblankD HdD)
    as Hconv.
  eapply (Converged_le m DiagonalNeighbours manhattanOffsets diagonalOffsets
            (coords points) (coords points)); try done.
  - apply DiagonalNeighbours_topology.
  - apply manhattanOffsets_diagonalOffsets.
Qed.

Lemma diagonal_ranks_at_most_manhattan_witness :
  ∃ dM dD,
    CalcReturns (mkDijkstraMap (replicate 3 (replicate 3 RankMax))
                   (rectMap 3 3 (λ _ _, true)) ManhattanNeighbours) [target 1 1] dM ∧
    CalcReturns (mkDijkstraMap (replicate 3 (replicate 3 RankMax))
                   (rectMap 3 3 (λ _ _, true)) DiagonalNeighbours) [target 1 1] dD ∧
    ∀ x y r, getPoint (Points dM) x y = Some r →
      ∃ r', getPoint (Points dD) x y = Some r' ∧ r' ≤ r.
Proof.
  apply (diagonal_ranks_at_most_manhattan (rectMap 3 3 (λ _ _, true)) [target 1 1]).
  - apply rectMap_OK.
  - repeat constructor; simpl; lia.
  - reflexivity.
  - reflexivity.
Defined.

(** X10.  After [BlankDMap], what [Calc] leaves depends on the targets
    as a set: two target lists with the same coordinates, in any order and
    with any repetitions, give the same map. *)
Theorem Calc_depends_on_the_target_set
  {P : Type} `{Point P} (m : Map) (nf : NeighbourFn) (offs : list (Z * Z))
  (points points' : list P) (d0 : DijkstraMap) :
  MapOK m → IsTopology offs nf → TargetsInBounds m points →
  coords points ⊆ coords points' → coords points' ⊆ coords points →
  BlankDMap m nf = Some d0 →
  ∃ d, CalcReturns d0 points d ∧ CalcReturns d0 points' d.
Proof.
  intros Hok Htopo Hin Hsub Hsub' Hblank.
  pose proof (TargetsInBounds_subseteq _ _ _ Hsub' Hin) as Hin'.
  destruct (blank_Calc_returns m nf offs Hok Htopo points d0 Hblank Hin) as [d Hd].
  destruct (blank_Calc_returns m nf offs Hok Htopo points' d0 Hblank Hin') as [d' Hd'].
  exists d. split; [done|].
  pose proof (blank_Calc_Converged m nf offs Htopo points d0 d Hblank Hd) as Hconv.
  pose proof (blank_Calc_Converged m nf offs Htopo points' d0 d' Hblank Hd') as Hconv'.
  pose proof (Converged_unique _ _ _ _ _ _ _ Hok Htopo Hsub Hsub' Hconv Hconv') as Heq.
  destruct Hd as [f Hf], Hd' as [f' Hf'].
  pose proof Hf as (? & ? & _ & _ & ->)%Calc_Done.
  pose proof Hf' as (? & ? & _ & _ & ->)%Calc_Done.
  simpl in Heq. subst. by exists f'.
Qed.

Lemma Calc_depends_on_the_target_set_witness :
  ∃ d,
    CalcReturns (mkDijkstraMap (replicate 2 (replicate 3 RankMax))
                   (rectMap 2 3 (λ _ _, true)) DiagonalNeighbours)
                [target 0 0; target 1 2] d ∧
    CalcReturns (mkDijkstraMap (replicate 2 (replicate 3 RankMax))
                   (rectMap 2 3 (λ _ _, true)) DiagonalNeighbours)
                [target 1 2; target 0 0; target 1 2] d.
Proof.
  apply (Calc_depends_on_the_target_set (rectMap 2 3 (λ _ _, true))
           DiagonalNeighbours diagonalOffsets).
  - apply rectMap_OK.
  - apply DiagonalNeighbours_topology.
  - repeat constructor; simpl; lia.
  - intros c Hc.
    repeat (apply elem_of_cons in Hc as [->|Hc];
            [repeat (first [apply list_elem_of_here | apply list_elem_of_further])|]).
    by apply elem_of_nil in Hc.
  - intros c Hc.
    repeat (apply elem_of_cons in Hc as [->|Hc];
            [repeat (first [apply list_elem_of_here | apply list_elem_of_further])|]).
    by apply elem_of_nil in Hc.
  - reflexivity.
Defined.

Lemma coords_app {P : Type} `{Point P} (l1 l2 : list P) :
  coords (l1 ++ l2) = coords l1 ++ coords l2.
Proof. unfold coords. apply fmap_app. Qed.

(** X11.  Targets can be added without blanking: on the map that
    [BlankDMap] and [Calc] left for some targets, a second [Calc] with
    further targets leaves the very map that [BlankDMap] and one [Calc]
    with all the targets leave. *)
Theorem Calc_adds_targets_without_blanking
  {P : Type} `{Point P} (m : Map) (nf : NeighbourFn) (offs : list (Z * Z))
  (points1 points2 : list P) (d0 : DijkstraMap) :
  MapOK m → IsTopology offs nf →
  TargetsInBounds m points1 → TargetsInBounds m points2 →
  BlankDMap m nf = Some d0 →
  ∃ d1 d2, CalcReturns d0 points1 d1 ∧ CalcReturns d1 points2 d2 ∧
           CalcReturns d0 (points1 ++ points2) d2.
Proof.
  intros Hok Htopo Hin1 Hin2 Hblank.
  pose proof (BlankDMap_fields _ _ _ Hblank) as [HM0 Hnf0].
  destruct (blank_Calc_returns m nf offs Hok Htopo points1 d0 Hblank Hin1) as [d1 Hd1].
  pose proof (blank_Calc_Converged m nf offs Htopo points1 d0 d1 Hblank Hd1) as [Hadm1 _].
  destruct Hd1 as [f1 Hf1].
  pose proof (Calc_fields _ _ _ _ Hf1) as [HM1 Hnf1].
  rewrite HM0 in HM1. rewrite Hnf0 in Hnf1.
  destruct (Calc_terminates_from d1 points2) as (pts & _ & d2 & Hf2).
  { rewrite HM1, Hnf1. by eapply topology_NeighbourFnOK. }
  { eapply Calc_WellFormed; [|done]. by eapply BlankDMap_WellFormed. }
  { by rewrite HM1. }
  assert (TargetsInBounds m (points1 ++ points2)) as Hin12 by (by apply Forall_app).
  destruct (blank_Calc_returns m nf offs Hok Htopo (points1 ++ points2) d0 Hblank Hin12)
    as [d12 Hd12].
  pose proof (blank_Calc_Converged m nf offs Htopo _ d0 d12 Hblank Hd12) as Hconv12.
  pose proof (Calc_Converged m nf offs Htopo _ d1 points2 d2 _ HM1 Hnf1 Hadm1 Hf2) as Hconv2.
  rewrite coords_app in Hconv12.
  pose proof (Converged_unique _ _ _ _ _ _ _ Hok Htopo
                (reflexivity _) (reflexivity _) Hconv2 Hconv12) as Heq.
  exists d1, d2. split_and!; [by eexists | by eexists |].
  destruct Hd12 as [f12 Hf12]. exists f12.
  pose proof Hf12 as (? & ? & _ & _ & Hd12)%Calc_Done.
  pose proof Hf2 as (? & ? & _ & _ & Hd2)%Calc_Done.
  rewrite Hf12. f_equal. subst d12 d2. simpl in *.
  by rewrite Heq, HM1, Hnf1, HM0, Hnf0.
Qed.

Lemma Calc_adds_targets_without_blanking_witness :
  ∃ d1 d2,
    CalcReturns (mkDijkstraMap (replicate 1 (replicate 5 RankMax))
                   (rectMap 1 5 (λ _ _, true)) ManhattanNeighbours) [target 0 0] d1 ∧
    CalcReturns d1 [target 0 4] d2 ∧
    CalcReturns (mkDijkstraMap (replicate 1 (replicate 5 RankMax))
                   (rectMap 1 5 (λ _ _, true)) ManhattanNeighbours)
                ([target 0 0] ++ [target 0 4]) d2.
Proof.
  apply (Calc_adds_targets_without_blanking (rectMap 1 5 (λ _ _, true))
           ManhattanNeighbours manhattanOffsets [target 0 0] [target 0 4]).
  - apply rectMap_OK.
  - apply ManhattanNeighbours_topology.
  - repeat constructor; simpl; lia.
  - repeat constructor; simpl; lia.
  - reflexivity.
Defined.

(** X12.  After [BlankDMap] and [Calc], the cells that hold rank 0 are
    exactly the targets. *)
Theorem rank_zero_marks_the_targets
  {P : Type} `{Point P} (m : Map) (nf : NeighbourFn) (offs : list (Z * Z))
  (points : list P) (d0 : DijkstraMap) :
  MapOK m → IsTopology offs nf → TargetsInBounds m points →
  BlankDMap m nf = Some d0 →
  ∃ d, CalcReturns d0 points d ∧
    ∀ x y, getPoint (Points d) x y = Some 0 ↔ (x, y) ∈ coords points.
Proof.
  intros Hok Htopo Hin Hblank.
  destruct (blank_Calc_returns m nf offs Hok Htopo points d0 Hblank Hin) as [d Hd].
  exists d. split; [done|].
  pose proof (blank_Calc_Converged m nf offs Htopo points d0 d Hblank Hd)
    as [(_ & _ & _ & Hsound & Hzero) _].
  intros x y. split.
  - intros Hr. pose proof (Hsound _ _ _ Hr eq_refl) as Hh.
    apply Hops_inv in Hh as [[_ Hc]|(o & _ & _ & _ & Hk)]; [done|].
    apply Hops_nonneg in Hk. lia.
  - intros Hc. exact (Hzero _ Hc).
Qed.

Lemma rank_zero_marks_the_targets_witness :
  ∃ d,
    CalcReturns (mkDijkstraMap (replicate 2 (replicate 2 RankMax))
                   (rectMap 2 2 (λ x _, x =? 0)) ManhattanNeighbours) [target 1 1] d ∧
    ∀ x y, getPoint (Points d) x y = Some 0 ↔ (x, y) ∈ coords [target 1 1].
Proof.
  apply (rank_zero_marks_the_targets (rectMap 2 2 (λ x _, x =? 0))
           ManhattanNeighbours manhattanOffsets [target 1 1]).
  - apply rectMap_OK.
  - apply ManhattanNeighbours_topology.
  - repeat constructor; simpl; lia.
  - reflexivity.
Defined.

(** X13.  Descending works: after [BlankDMap] and [Calc], at a cell whose
    rank [r] is above 0 and below [RankMax], [LowestNeighbour] returns a
    neighbouring cell of the grid whose rank is [r - 1]. *)
Theorem LowestNeighbour_steps_down
  {P : Type} `{Point P} (m : Map) (nf : NeighbourFn) (offs : list (Z * Z))
  (points : list P) (d0 : DijkstraMap) :
  MapOK m → IsTopology offs nf → TargetsInBounds m points →
  BlankDMap m nf = Some d0 →
  ∃ d, CalcReturns d0 points d ∧
    ∀ x y r, getPoint (Points d) x y = Some r → 0 < r < RankMax →
      ∃ wp o, LowestNeighbour d x y = Some wp ∧ Val wp = r - 1 ∧
              o ∈ offs ∧ X wp = x + o.1 ∧ Y wp = y + o.2 ∧
              getPoint (Points d) (X wp) (Y wp) = Some (r - 1).
Proof.
  intros Hok Htopo Hin Hblank.
  pose proof (BlankDMap_fields _ _ _ Hblank) as [HM0 Hnf0].
  destruct (blank_Calc_returns m nf offs Hok Htopo points d0 Hblank Hin) as [d Hd].
  exists d. split; [done|].
  pose proof (blank_Calc_Converged m nf offs Htopo points d0 d Hblank Hd)
    as [(Hshape & Hranks & Hbound & Hsound & Hzero) Hsettled].
  assert (d = mkDijkstraMap (Points d) m nf) as Hdeq.
  { destruct Hd as [f Hf]. apply Calc_Done in Hf as (? & ? & _ & _ & ->).
    simpl. by rewrite HM0, Hnf0. }
  intros x y r Hr [Hpos Hsmall].
  pose proof (Hsound _ _ _ Hr Hsmall) as Hhops.
  apply Hops_inv in Hhops as [[-> _]|(o & Hcell & Hpass & Ho & Hnext)]; [lia|].
  simpl in Hcell, Hpass, Hnext.
  destruct (settled_rank_le_hops m nf offs (coords points) Hok Htopo (Points d) _ _
              Hshape Hranks Hbound Hsettled Hzero Hnext) as (r1 & Hr1 & Hle1).
  simpl in Hr1.
  destruct (Settled_passable _ _ _ _ _ (Hsettled _ _ Hcell) Hpass)
    as (wp & cur & Hln & Hcur & Hcurle).
  assert (cur = r) as -> by congruence.
  pose proof Hln as (Hrange & (o' & Ho' & Hget) & Hmin)%(LowestNeighbour_topology
    m nf offs Htopo); [|done..].
  assert (Val wp ≤ r1) as Hwp1.
  { apply (Hmin o (mkWeightedPoint (x + o.1) (y + o.2) r1) Ho).
    rewrite (GetValPoint_contract _ _ _ _ Hok Hshape), Hr1. done. }
  rewrite rank_succ_small in Hcurle by (unfold RankMax in *; lia).
  assert (Val wp = r - 1) as Hval by lia.
  exists wp, o'. rewrite Hdeq at 1. split_and!; [done..| | |].
  - apply GetValPoint_Some in Hget as [[_ ->]|(_ & v & _ & ->)]; done.
  - apply GetValPoint_Some in Hget as [[_ ->]|(_ & v & _ & ->)]; done.
  - apply GetValPoint_Some in Hget as [[_ ->]|(_ & v & Hv & ->)]; simpl in *; [lia|].
    by rewrite Hv, Hval.
Qed.

Lemma LowestNeighbour_steps_down_witness :
  ∃ d,
    CalcReturns (mkDijkstraMap (replicate 3 (replicate 3 RankMax))
                   (rectMap 3 3 (λ _ _, true)) ManhattanNeighbours) [target 1 1] d ∧
    ∀ x y r, getPoint (Points d) x y = Some r → 0 < r < RankMax →
      ∃ wp o, LowestNeighbour d x y = Some wp ∧ Val wp = r - 1 ∧
              o ∈ manhattanOffsets ∧ X wp = x + o.1 ∧ Y wp = y + o.2 ∧
              getPoint (Points d) (X wp) (Y wp) = Some (r - 1).
Proof.
  apply (LowestNeighbour_steps_down (rectMap 3 3 (λ _ _, true))
           ManhattanNeighbours manhattanOffsets [target 1 1]).
  - apply rectMap_OK.
  - apply ManhattanNeighbours_topology.
  - repeat constructor; simpl; lia.
  - reflexivity.
Defined.

(** ** The blank map and looked-up points *)



(** X15.  A point looked up with [GetValPoint] can be handed to [Calc] as
    a target: its [GetXY] is the coordinate that was looked up, so [Calc]
    puts rank 0 on that very cell. *)
Theorem looked_up_point_as_target (d : DijkstraMap) (x y : Z) :
  MapOK (M d) → NeighbourFnOK (M d) (NeigbourFunc d) → WellFormed d →
  InBounds (M d) x y →
  ∃ wp d', GetValPoint (Points d) (M d) x y = Some wp ∧ GetXY wp = (x, y) ∧
           CalcReturns d [wp] d' ∧ getPoint (Points d') x y = Some 0.
Proof.
  intros Hok HnfOK Hwf Hin.
  pose proof (GetValPoint_contract (Points d) (M d) x y Hok (proj1 Hwf)) as Hget.
  eexists. destruct (Calc_terminates_from d [mkWeightedPoint x y
    (default RankMax (getPoint (Points d) x y))] HnfOK Hwf) as (pts & _ & d' & Hd').
  { constructor; [exact Hin | constructor]. }
  exists d'. split_and!; [done|done|by eexists|].
  apply (Calc_targets_zero _ _ _ _
           (mkWeightedPoint x y (default RankMax (getPoint (Points d) x y))) Hd').
  apply list_elem_of_here.
Qed.

Lemma looked_up_point_as_target_witness :
  let d := mkDijkstraMap [[3; 65525]; [8; 2]] (rectMap 2 2 (λ _ _, true))
             ManhattanNeighbours in
  ∃ wp d', GetValPoint (Points d) (M d) 1 0 = Some wp ∧ GetXY wp = (1, 0) ∧
           CalcReturns d [wp] d' ∧ getPoint (Points d') 1 0 = Some 0.
Proof.
  apply (looked_up_point_as_target
           (mkDijkstraMap [[3; 65525]; [8; 2]] (rectMap 2 2 (λ _ _, true))
              ManhattanNeighbours) 1 0).
  - apply rectMap_OK.
  - exact (topology_NeighbourFnOK _ _ _ (rectMap_OK _ _ _) ManhattanNeighbours_topology).
  - split; [split; [reflexivity | repeat constructor]
           | repeat constructor; unfold MaxUint16; lia].
  - unfold InBounds. simpl. lia.
Defined.

(** ** Reading the dump back *)

Lemma digitChar_not_space k : 0 ≤ k < 10 → digitChar k ≠ space.
Proof.
  intros Hk Heq. apply (f_equal nat_of_ascii) in Heq.
  unfold digitChar in Heq. rewrite nat_ascii_embedding in Heq by lia.
  vm_compute in Heq. lia.
Qed.

Lemma decimal_go_no_space fuel n acc :
  Forall (λ c, c ≠ space) acc → Forall (λ c, c ≠ space) (decimal_go fuel n acc).
Proof.
  revert n acc. induction fuel as [|fuel IH]; intros n acc Hacc; simpl; [done|].
  assert (Forall (λ c, c ≠ space) (digitChar (n mod 10) :: acc)) as Hacc'.
  { constructor; [|done]. apply digitChar_not_space. apply Z.mod_pos_bound. lia. }
  case_decide; [done | by apply IH].
Qed.

Lemma padded_inj (a b : nat) (s1 s2 : list ascii) :
  Forall (λ c, c ≠ space) s1 → Forall (λ c, c ≠ space) s2 →
  replicate a space ++ s1 = replicate b space ++ s2 → s1 = s2.
Proof.
  intros H1 H2. revert b. induction a as [|a IH]; intros [|b]; simpl; intros Heq.
  - done.
  - subst s1. apply Forall_cons in H1 as [Hne _]. done.
  - subst s2. apply Forall_cons in H2 as [Hne _]. done.
  - injection Heq as Heq. by eapply IH.
Qed.

Lemma Sprintf_6d_inj r1 r2 :
  0 ≤ r1 → 0 ≤ r2 → Sprintf_6d r1 = Sprintf_6d r2 → r1 = r2.
Proof.
  intros Hr1 Hr2 Heq. unfold Sprintf_6d in Heq. simpl in Heq.
  apply padded_inj in Heq; [| by apply decimal_go_no_space..].
  rewrite <- (formatDecimal_decode r1), <- (formatDecimal_decode r2) by done.
  by rewrite Heq.
Qed.

(** Where the field of a cell lies in the dump. *)
Lemma String_cell_at d x y r :
  WellFormed d → getPoint (Points d) x y = Some r →
  ∃ pre post, String d = pre ++ Sprintf_6d r ++ post ∧
    Z.of_nat (length pre) = x * (8 * SizeY (M d) + 1) + 8 * y.
Proof.
  intros Hwf Hr. pose proof (WellFormed_rows d Hwf) as Hblocks.
  destruct Hwf as [[Hlen Hrows] Hranks]. unfold RanksOK in Hranks.
  rewrite String_concat.
  apply getPoint_Some in Hr as (row & [Hx Hrow]%index_Some & [Hy Hcell]%index_Some).
  destruct (bind_block _ _ _ _ _ Hblocks Hrow) as (pre & post & Heq & Hpre).
  assert (Forall (λ v, length (writeCell v) = 8%nat) row) as Hcells.
  { rewrite Forall_lookup in Hranks. eapply Forall_impl; [exact (Hranks _ _ Hrow)|].
    intros v. apply writeCell_length. }
  destruct (bind_block _ _ _ _ _ Hcells Hcell) as (cpre & cpost & Hceq & Hcpre).
  exists (pre ++ cpre), ([comma; space] ++ cpost ++ [newline] ++ post). split.
  - rewrite Heq. unfold writeRow. rewrite Hceq. unfold writeCell.
    rewrite <- !app_assoc. done.
  - rewrite length_app, Hpre, Hcpre.
    rewrite Forall_lookup in Hrows. specialize (Hrows _ _ Hrow). simpl in Hrows. lia.
Qed.

(** X16.  The dump loses nothing: two well-formed maps over the same grid
    that [String] renders alike hold the same ranks. *)
Theorem String_determines_the_ranks (d1 d2 : DijkstraMap) :
  WellFormed d1 → WellFormed d2 → M d1 = M d2 →
  String d1 = String d2 → Points d1 = Points d2.
Proof.
  intros Hwf1 Hwf2 HM Hstr.
  pose proof Hwf1 as [Hs1 Hr1]. pose proof Hwf2 as [Hs2 Hr2]. rewrite <- HM in Hs2.
  apply (getPoint_ext (M d1)); [done..|]. intros x y.
  destruct (getPoint (Points d1) x y) as [r1|] eqn:H1.
  - assert (is_Some (getPoint (Points d2) x y)) as [r2 H2].
    { apply (Shape_getPoint _ _ _ _ Hs2), (Shape_getPoint _ _ _ _ Hs1). eauto. }
    rewrite H2. f_equal.
    destruct (String_cell_at d1 x y r1 Hwf1 H1) as (pre1 & post1 & Heq1 & Hlen1).
    destruct (String_cell_at d2 x y r2 Hwf2 H2) as (pre2 & post2 & Heq2 & Hlen2).
    pose proof (getPoint_Forall _ _ _ _ _ Hr1 H1) as Hrange1.
    pose proof (getPoint_Forall _ _ _ _ _ Hr2 H2) as Hrange2. simpl in *.
    rewrite Heq1, Heq2 in Hstr. rewrite <- HM in Hlen2.
    apply app_inj_1 in Hstr as [_ Hstr]; [|lia].
    apply app_inj_1 in Hstr as [Hstr _]; [|by rewrite !Sprintf_6d_length].
    symmetry. apply Sprintf_6d_inj; [lia..|done].
  - destruct (getPoint (Points d2) x y) as [r2|] eqn:H2; [|done].
    assert (is_Some (getPoint (Points d1) x y)) as [? ?]; [|congruence].
    apply (Shape_getPoint _ _ _ _ Hs1), (Shape_getPoint _ _ _ _ Hs2). eauto.
Qed.

Lemma String_determines_the_ranks_witness :
  let d1 := mkDijkstraMap [[2; 1]; [0; 65525]] (rectMap 2 2 (λ _ _, true))
              ManhattanNeighbours in
  let d2 := mkDijkstraMap [[1 + 1; 1]; [0; RankMax]] (rectMap 2 2 (λ _ _, true))
              DiagonalNeighbours in
  Points d1 = Points d2.
Proof.
  apply (String_determines_the_ranks
           (mkDijkstraMap [[2; 1]; [0; 65525]] (rectMap 2 2 (λ _ _, true))
              ManhattanNeighbours)
           (mkDijkstraMap [[1 + 1; 1]; [0; RankMax]] (rectMap 2 2 (λ _ _, true))
              DiagonalNeighbours)).
  - split; [split; [reflexivity | repeat constructor]
           | repeat constructor; unfold MaxUint16; lia].
  - split; [split; [reflexivity | repeat constructor]
           | repeat constructor; unfold RankMax, MaxUint16; lia].
  - reflexivity.
  - reflexivity.
Defined.
